(** * netzob: the search engine of the vocabulary inference

    Shallow embedding of
    [src/netzob/Inference/Vocabulary/Search/SearchEngine.py]
    (class [SearchEngine]: [searchInMessage], [searchDataInMessage],
    [__search], [buildSearchTasks]) and of the collaborators it calls. *)

From stdpp Require Import gmap strings list fin_maps functions sorting.

(** ** Python values *)

(** Exceptions.  The engine itself only raises [TypeError]; what the
    specification calls [InvalidInputError] is this [TypeError].  Every other
    exception class a collaborator may raise is [Exception cls]. *)
Inductive exn : Type :=
| TypeError (msg : string)
| Exception (cls : string).

(** A dynamically typed slot that is expected to hold an instance of [T]:
    [None], an instance ([isinstance(x, T)] holds), or an object of another
    class. *)
Inductive pyval (T : Type) : Type :=
| PyNone
| PyInst (x : T)
| PyOther (cls : string).
Arguments PyNone {T}.
Arguments PyInst {T} x.
Arguments PyOther {T} cls.

(** [bitarray.bitarray]: a sequence of bits. *)
Abbreviation bitarray := (list bool).

(** ** The bit matcher *)

(** [h[i:j]] for [0 <= i], Python slicing: clipped at the end of [h]. *)
Definition slice (h : bitarray) (i j : nat) : bitarray :=
  take (j - i) (drop i h).

(** Does [h] start with [n]? *)
Fixpoint startswith (h n : bitarray) : bool :=
  match n, h with
  | [], _ => true
  | _ :: _, [] => false
  | b :: n', a :: h' => Bool.eqb a b && startswith h' n'
  end.

(** One pass over the haystack: every position from [pos] on is tried, the
    scan goes on one bit after a match, so overlapping matches are kept. *)
Fixpoint scan (pos : nat) (h n : bitarray) : list nat :=
  match h with
  | [] => []
  | _ :: h' =>
      if startswith h n then pos :: scan (S pos) h' n else scan (S pos) h' n
  end.

(** Modelled from the spec: the bit matcher [findAll(haystack, needle)] of
    section 4.2, which the engine reaches as [target.search(needle)] on a
    [bitarray]; the [bitarray] package is not part of the sources.  "If
    needle has zero length, returns an empty sequence (never matches)";
    otherwise "every start offset i such that
    haystack[i : i+len(needle)] == needle, including overlapping
    occurrences", in ascending order. *)
Definition findAll (haystack needle : bitarray) : list nat :=
  match needle with
  | [] => []
  | _ :: _ => scan 0 haystack needle
  end.

(** ** Data model *)

(** Modelled from the spec: the class [SearchTask] (its file is not part of
    the sources), section 3: a value object binding one mutation, its bit
    sequence and its label.  [SearchTask(mutation, mutationType)] stores the
    two arguments as given. *)
Module SearchTask.
Record t : Type := mk { data : pyval bitarray; mutationType : string }.
End SearchTask.

(** Modelled from the spec: the class [SearchResult] (not part of the
    sources), section 3: [{ target, task, ranges }], built by
    [SearchResult(target, searchTask, ranges)]; [SearchResults] is the ordered
    collection of them, filled with [append]. *)
Module SearchResult.
Record t : Type :=
  mk { target : bitarray; searchTask : SearchTask.t; ranges : list (nat * nat) }.
End SearchResult.
Abbreviation SearchResults := (list SearchResult.t).

(** [HighlightFunction(startPos, endPos)], the annotation put on a message. *)
Inductive HighlightFunction : Type :=
| Highlight (startPos endPos : nat).

(** The two attributes of an [AbstractMessage] the engine touches: the raw
    content [data] (a Python 2 [str], a byte string) and the list
    [visualizationFunctions]. *)
Module AbstractMessage.
Record t : Type :=
  mk { data : string; visualizationFunctions : list HighlightFunction }.
End AbstractMessage.

(** ** Effects: the object store, the trace, exceptions *)

(** Messages are shared mutable objects: the caller and the engine hold
    references to them. *)
Definition loc : Type := nat.
#[global] Instance loc_eq_dec : EqDecision loc := Nat.eq_dec.

(** What a search call does besides computing: the calls to its
    collaborators and the annotations it appends, in the order of
    execution. *)
Inductive event : Type :=
| EvNormalize
| EvMutate
| EvConvert (raw : string)
| EvSearch (target : bitarray) (needle : pyval bitarray)
| EvHighlight (message : loc) (f : HighlightFunction).

Record world : Type :=
  World { messages : loc → AbstractMessage.t; events : list event }.

(** A computation either raises or returns, and leaves a world behind. *)
Definition M (A : Type) : Type := world → (exn + A) * world.

Definition ret {A} (a : A) : M A := λ w, (inr a, w).
Definition raise {A} (e : exn) : M A := λ w, (inl e, w).
Definition bind {A B} (m : M A) (k : A → M B) : M B :=
  λ w, match m w with
       | (inl e, w') => (inl e, w')
       | (inr a, w') => k a w'
       end.

Notation "'let*' x ':=' m 'in' k" := (bind m (λ x, k))
  (at level 10, x name, m at level 100, k at level 200).
Notation "m ';;' k" := (bind m (λ _, k))
  (at level 100, k at level 200, right associativity, only parsing).

(** The outcome of a collaborator that has no effect of its own. *)
Definition lift {A} (r : exn + A) : M A := λ w, (r, w).

Definition emit (e : event) : M unit :=
  λ w, (inr tt, World (messages w) (events w ++ [e])).

(** [message.<attribute>]: read the object behind the reference. *)
Definition deref (message : loc) : M AbstractMessage.t :=
  λ w, (inr (messages w message), w).

(** The message with [fs] appended to its [visualizationFunctions]. *)
Definition tagged (fs : list HighlightFunction) (m : AbstractMessage.t) :
    AbstractMessage.t :=
  AbstractMessage.mk (AbstractMessage.data m)
                     (AbstractMessage.visualizationFunctions m ++ fs).

(** [message.visualizationFunctions.append(f)] *)
Definition append_visualizationFunction (message : loc) (f : HighlightFunction) :
    M unit :=
  λ w, (inr tt, World (alter (tagged [f]) message (messages w))
                      (events w ++ [EvHighlight message f])).

(** [for x in xs: acc = body(acc, x)]; an exception leaves the loop. *)
Fixpoint foldM {A B} (body : A → B → M A) (acc : A) (xs : list B) : M A :=
  match xs with
  | [] => ret acc
  | x :: xs' => let* acc' := body acc x in foldM body acc' xs'
  end.

(** [for x in xs: body(x)] *)
Definition for_each {B} (xs : list B) (body : B → M unit) : M unit :=
  foldM (λ _ x, body x) tt xs.

(** ** The bitarray methods the engine calls *)

(** [target.search(x)]: the bit matcher, logged as [EvSearch].  Modelled
    from the spec: section 4.3 has the search fail with the input error when
    the bits of a task are "not a valid bit sequence type"; here it is a
    [TypeError]. *)
Definition bitarray_search (target : bitarray) (x : pyval bitarray) :
    M (list nat) :=
  emit (EvSearch target x);;
  match x with
  | PyInst needle => ret (findAll target needle)
  | _ => raise (TypeError "bitarray expected")
  end.

(** [len(x)] *)
Definition len (x : pyval bitarray) : M nat :=
  match x with
  | PyInst b => ret (length b)
  | _ => raise (TypeError "object has no len()")
  end.

(** ** The engine *)

(** [itertools.product([target], searchTasks)] *)
Definition product {A B} (xs : list A) (ys : list B) : list (A * B) :=
  x ← xs; y ← ys; [(x, y)].

(** The body of the loop of [__search], lines 158-167: [results] is the
    collection built so far. *)
Definition search_case (results : SearchResults)
    (case : pyval bitarray * pyval SearchTask.t) : M SearchResults :=
  match case with
  | (PyInst target, PyInst searchTask) =>
      let* starts := bitarray_search target (SearchTask.data searchTask) in
      let* ranges :=
        foldM (λ ranges startIndex,
                 let* n := len (SearchTask.data searchTask) in
                 ret (ranges ++ [(startIndex, startIndex + n)]))
              [] starts in
      if decide (0 < length ranges)
      then ret (results ++ [SearchResult.mk target searchTask ranges])
      else ret results
  | _ =>
      raise (TypeError
        "Each search case must a tupple made of a bitarray and a SearchTask instance")
  end.

(** [SearchEngine.__search(searchCases)] *)
Definition __search
    (searchCases : option (list (pyval bitarray * pyval SearchTask.t))) :
    M SearchResults :=
  match searchCases with
  | None => raise (TypeError "There should be at least one search case.")
  | Some cases => foldM search_case [] cases
  end.

Section SearchEngine.
  (** The collaborators, which are not part of the sources: what the caller
      passes as data ([D]) and the typed values ([T]);
      [AbstractType.normalize], the method [mutate] of a typed value, which
      returns a dict from mutation label to mutation, and
      [TypeConverter.convert(_, Raw, BitArray)].  Each may raise. *)
Context {D T : Type}.
Variable normalize : D → exn + option T.
Variable mutate : T → exn + gmap string (pyval bitarray).
Variable convert : string → exn + pyval bitarray.

  (** [SearchEngine.buildSearchTasks(data)]: one task for each item of the
    dict [data.mutate()], in the order of [iteritems()]. *)
Definition buildSearchTasks (data : option T) : M (list SearchTask.t) :=
    match data with
    | None => raise (TypeError "The data cannot be None")
    | Some data =>
        emit EvMutate;;
        let* mutations := lift (mutate data) in
        ret ((λ item, SearchTask.mk item.2 item.1) <$> map_to_list mutations)
    end.

  (** [SearchEngine.searchDataInMessage(data, message, addTags)].  The
    decorator [typeCheck] (not part of the sources) only refuses arguments of
    another type, which the types of the arguments here exclude.  The calls
    to the collaborators are logged, each before it is made. *)
Definition searchDataInMessage (data : option D) (message : option loc)
      (addTags : bool) : M SearchResults :=
    match data with
    | None => raise (TypeError "Data cannot be None")
    | Some data =>
        match message with
        | None => raise (TypeError "Message cannot be None")
        | Some message =>
            emit EvNormalize;;
            let* normedData := lift (normalize data) in
            let* searchTasks := buildSearchTasks normedData in
            let* m := deref message in
            emit (EvConvert (AbstractMessage.data m));;
            let* target := lift (convert (AbstractMessage.data m)) in
            let searchCases := product [target] (PyInst <$> searchTasks) in
            let* searchResults := __search (Some searchCases) in
            (if addTags
             then for_each searchResults (λ searchResult,
                    for_each (SearchResult.ranges searchResult) (λ range,
                      append_visualizationFunction message
                        (Highlight range.1 range.2)))
             else ret tt);;
            ret searchResults
        end
    end.

  (** [SearchEngine.searchInMessage(data, message, addTags=True)]; [None]
      for [addTags] is a call that leaves the keyword out. *)
Definition searchInMessage (data : option D) (message : option loc)
      (addTags : option bool) : M SearchResults :=
    searchDataInMessage data message (default true addTags).
End SearchEngine.

(** ** Vocabulary of the statements *)

(** [m] neither reads nor writes the store: in every world it has the
    outcome [o] and adds [evs] to the trace. *)
Definition logs {A} (m : M A) (o : exn + A) (evs : list event) : Prop :=
  ∀ w, m w = (o, World (messages w) (events w ++ evs)).

Definition is_search (e : event) : Prop :=
  match e with EvSearch _ _ => True | _ => False end.

Definition is_highlight (e : event) : Prop :=
  match e with EvHighlight _ _ => True | _ => False end.

(** The ranges [(s, s + len(needle))] of the matches of [needle]. *)
Definition ranges_of (target needle : bitarray) : list (nat * nat) :=
  (λ s, (s, s + length needle)) <$> findAll target needle.

(** A search case as [__search] wants it: a bitarray and a [SearchTask]
    whose bits are a bitarray. *)
Definition valid_case (case : pyval bitarray * pyval SearchTask.t) : Prop :=
  match case with
  | (PyInst _, PyInst searchTask) =>
      match SearchTask.data searchTask with PyInst _ => True | _ => False end
  | _ => False
  end.

(** The trace of a valid case. *)
Definition search_event (case : pyval bitarray * pyval SearchTask.t) :
    list event :=
  match case with
  | (PyInst target, PyInst searchTask) =>
      [EvSearch target (SearchTask.data searchTask)]
  | _ => []
  end.

(** A valid case without a match. *)
Definition never_occurs (case : pyval bitarray * pyval SearchTask.t) : Prop :=
  match case with
  | (PyInst target, PyInst searchTask) =>
      match SearchTask.data searchTask with
      | PyInst needle => findAll target needle = []
      | _ => False
      end
  | _ => False
  end.

(** The annotations of a result set, in the order in which
    [searchDataInMessage] appends them. *)
Definition highlights (rs : SearchResults) : list HighlightFunction :=
  r ← rs; range ← SearchResult.ranges r; [Highlight range.1 range.2].

Definition highlights_of (o : exn + SearchResults) : list HighlightFunction :=
  match o with inr rs => highlights rs | inl _ => [] end.

(** [w'] is [w] after [hl] was appended to the annotations of [message]:
    one event for each, nothing else in the store has changed. *)
Definition annotates (message : loc) (hl : list HighlightFunction)
    (w w' : world) : Prop :=
  events w' = events w ++ (EvHighlight message <$> hl)
  ∧ messages w' message = tagged hl (messages w message)
  ∧ ∀ l, l ≠ message → messages w' l = messages w l.

(** The search tasks of a dict of mutations. *)
Definition tasks_of (mutations : gmap string (pyval bitarray)) :
    list SearchTask.t :=
  (λ item, SearchTask.mk item.2 item.1) <$> map_to_list mutations.

(** What identifies a result within its collection: the label of its
    mutation and its ranges. *)
Definition result_key (r : SearchResult.t) : string * list (nat * nat) :=
  (SearchTask.mutationType (SearchResult.searchTask r), SearchResult.ranges r).

Section Phases.
Context {D T : Type}.
Variable normalize : D → exn + option T.
Variable mutate : T → exn + gmap string (pyval bitarray).
Variable convert : string → exn + pyval bitarray.

(** Lines 123-135 of [searchDataInMessage], on the content [raw] of the
    message: everything up to the aggregated results. *)
Definition search_phase (data : D) (raw : string) : M SearchResults :=
  emit EvNormalize;;
  let* normedData := lift (normalize data) in
  let* searchTasks := buildSearchTasks mutate normedData in
  emit (EvConvert raw);;
  let* target := lift (convert raw) in
  __search (Some (product [target] (PyInst <$> searchTasks))).

(** Lines 139-141 of [searchDataInMessage]: the two loops that tag. *)
Definition annotate_phase (message : loc) (searchResults : SearchResults) :
    M unit :=
  for_each searchResults (λ searchResult,
    for_each (SearchResult.ranges searchResult) (λ range,
      append_visualizationFunction message (Highlight range.1 range.2))).
End Phases.

(** ** The mutation generator *)

(** Modelled from the spec: the mutation generator [expand] of section 4.1,
    which the engine reaches as [data.mutate()]; the typed values are not part
    of the sources.  The catalogue of encodings is configuration: a mapping
    from label to transform.  "Transform failures are non-fatal: the engine
    skips that single mutation and continues", a failure is [None]; "a
    Mutation with an empty bit sequence is invalid and must be discarded by
    the generator"; labels are unique within one expansion. *)
Definition expand {T} (encodings : gmap string (T → option bitarray))
    (value : T) : gmap string (pyval bitarray) :=
  omap (λ encode : T → option bitarray,
          match encode value with
          | Some (b :: bits) => Some (PyInst (b :: bits))
          | _ => None
          end) encodings.

(** ** A concrete instance *)

(** The collaborators on text: the data is a string, its typed value the
    string itself, bits are taken most significant first. *)
Definition bits_of_ascii (c : Ascii.ascii) : bitarray :=
  match c with
  | Ascii.Ascii b0 b1 b2 b3 b4 b5 b6 b7 => [b7; b6; b5; b4; b3; b2; b1; b0]
  end.

Fixpoint bits_of_string (s : string) : bitarray :=
  match s with
  | EmptyString => []
  | String c s' => bits_of_ascii c ++ bits_of_string s'
  end.

Definition text_normalize (data : string) : exn + option string :=
  inr (Some data).

Definition text_encodings : gmap string (string → option bitarray) :=
  {[ "identity" := λ s, Some (bits_of_string s);
     "reversed" := λ s, Some (bits_of_string (String.rev s));
     "first" := λ s, Some (bits_of_string (String.substring 0 1 s)) ]}.

Definition text_mutate (value : string) : exn + gmap string (pyval bitarray) :=
  inr (expand text_encodings value).

Definition text_convert (raw : string) : exn + pyval bitarray :=
  inr (PyInst (bits_of_string raw)).

(** A store in which every message is ["abcab"], not annotated, and an
    empty trace. *)
Definition world0 : world :=
  World (λ _, AbstractMessage.mk "abcab" []) [].

(** ** Vocabulary of the further properties *)

(** What the iteration of [__search] for one case appends to the results,
    lines 162-167: nothing, or one result with the ranges of the matches. *)
Definition case_result (case : pyval bitarray * pyval SearchTask.t) :
    SearchResults :=
  match case with
  | (PyInst target, PyInst searchTask) =>
      match SearchTask.data searchTask with
      | PyInst needle =>
          if decide (findAll target needle = []) then []
          else [SearchResult.mk target searchTask (ranges_of target needle)]
      | _ => []
      end
  | _ => []
  end.

(** [range] is an occurrence of [needle] in [target]: as long as the
    needle, within the target, and the bits there are the needle. *)
Definition occurrence (target needle : bitarray) (range : nat * nat) : Prop :=
  range.2 = range.1 + length needle
  ∧ range.2 ≤ length target
  ∧ slice target range.1 range.2 = needle.

(** A result as [__search] builds it: the bits of its task are a bitarray,
    and its ranges are the occurrences of these bits in its target, at least
    one, by ascending start. *)
Definition result_ok (r : SearchResult.t) : Prop :=
  ∃ needle,
    SearchTask.data (SearchResult.searchTask r) = PyInst needle
    ∧ SearchResult.ranges r ≠ []
    ∧ (∀ range, range ∈ SearchResult.ranges r
                ↔ occurrence (SearchResult.target r) needle range)
    ∧ StronglySorted lt (SearchResult.ranges r).*1.

(** Every mutation of the dict is a bitarray. *)
Definition all_bits (mutations : gmap string (pyval bitarray)) : Prop :=
  ∀ label x, mutations !! label = Some x → ∃ bits, x = PyInst bits.

(** The search cases [searchDataInMessage] builds. *)
Definition cases_of (target : pyval bitarray)
    (mutations : gmap string (pyval bitarray)) :
    list (pyval bitarray * pyval SearchTask.t) :=
  pair target <$> (PyInst <$> tasks_of mutations).

(** * Proofs *)

(** *** Facts about the matcher *)

Lemma startswith_take (h n : bitarray) :
  startswith h n = true ↔ take (length n) h = n.
Proof.
  revert h; induction n as [|b n IH]; intros h; simpl.
  - by destruct h.
  - destruct h as [|a h]; simpl; [done|].
    rewrite andb_true_iff, IH, Bool.eqb_true_iff. split.
    + by intros [-> ->].
    + by intros [= -> ?].
Qed.

Lemma scan_lower (pos : nat) (h n : bitarray) (i : nat) :
  i ∈ scan pos h n → pos ≤ i.
Proof.
  revert pos; induction h as [|a h IH]; intros pos; cbn [scan].
  - by intros ?%elem_of_nil.
  - destruct (startswith (a :: h) n).
    + intros [->|Hi%IH]%elem_of_cons; lia.
    + intros Hi%IH; lia.
Qed.

Lemma scan_elem (pos : nat) (h n : bitarray) (i : nat) :
  n ≠ [] →
  i ∈ scan pos h n ↔ pos ≤ i ∧ take (length n) (drop (i - pos) h) = n.
Proof.
  intros Hn. revert pos; induction h as [|a h IH]; intros pos; cbn [scan].
  - rewrite drop_nil, take_nil. split; [by intros ?%elem_of_nil|].
    intros [_ E]. by destruct n.
  - assert (Hstep : ∀ P : Prop,
      (P ↔ S pos ≤ i ∧ take (length n) (drop (i - S pos) h) = n) →
      (i = pos ∧ take (length n) (a :: h) = n) ∨ P ↔
      pos ≤ i ∧ take (length n) (drop (i - pos) (a :: h)) = n).
    { intros P HP. rewrite HP. split.
      - intros [[-> E]|[Hle E]].
        + by rewrite Nat.sub_diag.
        + split; [lia|]. by replace (i - pos) with (S (i - S pos)) by lia.
      - intros [Hle E]. destruct (decide (i = pos)) as [->|Hne].
        + left. by rewrite Nat.sub_diag in E.
        + right. split; [lia|].
          by replace (i - pos) with (S (i - S pos)) in E by lia. }
    destruct (startswith (a :: h) n) eqn:Hs.
    + rewrite elem_of_cons, <- (Hstep _ (IH (S pos))).
      apply startswith_take in Hs. intuition.
    + rewrite <- (Hstep _ (IH (S pos))).
      assert (¬ take (length n) (a :: h) = n).
      { rewrite <- startswith_take. by rewrite Hs. }
      intuition.
Qed.

Lemma scan_sorted (pos : nat) (h n : bitarray) :
  StronglySorted lt (scan pos h n).
Proof.
  revert pos; induction h as [|a h IH]; intros pos; cbn [scan].
  - constructor.
  - destruct (startswith (a :: h) n); [|apply IH].
    constructor; [apply IH|].
    apply Forall_forall. intros i Hi%scan_lower. lia.
Qed.

Lemma findAll_sorted (h n : bitarray) : StronglySorted lt (findAll h n).
Proof. destruct n; [constructor|apply scan_sorted]. Qed.

Lemma findAll_elem (h n : bitarray) (i : nat) :
  n ≠ [] → i ∈ findAll h n ↔ slice h i (i + length n) = n.
Proof.
  intros Hn. unfold findAll, slice. destruct n as [|b n]; [done|].
  rewrite scan_elem by done.
  replace (i + length (b :: n) - i) with (length (b :: n)) by lia.
  rewrite Nat.sub_0_r. intuition lia.
Qed.

(** ** Reasoning about computations *)

Lemma world_eta (w : world) : World (messages w) (events w ++ []) = w.
Proof. destruct w; simpl. by rewrite app_nil_r. Qed.

Lemma logs_ret {A} (a : A) : logs (ret a) (inr a) [].
Proof. intros w. unfold ret. by rewrite world_eta. Qed.

Lemma logs_raise {A} (e : exn) : logs (@raise A e) (inl e) [].
Proof. intros w. unfold raise. by rewrite world_eta. Qed.

Lemma logs_lift {A} (r : exn + A) : logs (lift r) r [].
Proof. intros w. unfold lift. by rewrite world_eta. Qed.

Lemma logs_emit (e : event) : logs (emit e) (inr tt) [e].
Proof. by intros w. Qed.

Lemma logs_bind_inr {A B} (m : M A) (k : A → M B) a o evs1 evs2 :
  logs m (inr a) evs1 → logs (k a) o evs2 → logs (bind m k) o (evs1 ++ evs2).
Proof.
  intros Hm Hk w. unfold bind. rewrite Hm, Hk; simpl. by rewrite app_assoc.
Qed.

Lemma logs_bind_inl {A B} (m : M A) (k : A → M B) e evs :
  logs m (inl e) evs → logs (bind m k) (inl e) evs.
Proof. intros Hm w. unfold bind. by rewrite Hm. Qed.

Lemma logs_inj {A} (m : M A) o1 o2 evs1 evs2 :
  logs m o1 evs1 → logs m o2 evs2 → o1 = o2 ∧ evs1 = evs2.
Proof.
  intros H1 H2. pose proof (H1 (World (λ _, AbstractMessage.mk "" []) [])) as E.
  rewrite H2 in E. simpl in E. by injection E as -> ->.
Qed.

(** A loop whose body only logs, only logs; [P] holds of all it logs. *)
Lemma logs_foldM {A B} (P : event → Prop) (body : A → B → M A) xs :
  (∀ acc x, ∃ o evs, logs (body acc x) o evs ∧ Forall P evs) →
  ∀ acc, ∃ o evs, logs (foldM body acc xs) o evs ∧ Forall P evs.
Proof.
  intros Hbody. induction xs as [|x xs IH]; intros acc; simpl.
  - exists (inr acc), []. split; [apply logs_ret|constructor].
  - destruct (Hbody acc x) as ([e|acc'] & evs & Hl & HP).
    + exists (inl e), evs. split; [by apply logs_bind_inl|done].
    + destruct (IH acc') as (o & evs' & Hl' & HP').
      exists o, (evs ++ evs'). split; [by eapply logs_bind_inr|].
      by apply Forall_app.
Qed.

Lemma foldM_app {A B} (body : A → B → M A) acc xs ys w :
  foldM body acc (xs ++ ys) w =
  bind (foldM body acc xs) (λ acc', foldM body acc' ys) w.
Proof.
  revert acc w; induction xs as [|x xs IH]; intros acc w; simpl; [done|].
  unfold bind. destruct (body acc x w) as [[e|acc'] w']; [done|].
  rewrite IH. done.
Qed.

(** *** One search case *)

Lemma ranges_loop (needle : bitarray) acc starts :
  logs (foldM (λ ranges startIndex,
                 let* n := len (PyInst needle) in
                 ret (ranges ++ [(startIndex, startIndex + n)])) acc starts)
       (inr (acc ++ ((λ s, (s, s + length needle)) <$> starts))) [].
Proof.
  intros w. rewrite world_eta. revert acc.
  induction starts as [|s starts IH]; intros acc; simpl.
  - by rewrite app_nil_r.
  - unfold bind; simpl. rewrite IH. by rewrite <- app_assoc.
Qed.

(** A valid case searches once and appends a result if and only if there
    is a match. *)
Lemma search_case_valid results target searchTask needle :
  SearchTask.data searchTask = PyInst needle →
  logs (search_case results (PyInst target, PyInst searchTask))
       (inr (if decide (findAll target needle = []) then results
             else results ++
                  [SearchResult.mk target searchTask (ranges_of target needle)]))
       [EvSearch target (PyInst needle)].
Proof.
  intros Hd. unfold search_case, bitarray_search. rewrite Hd.
  change [EvSearch target (PyInst needle)]
    with (([EvSearch target (PyInst needle)] ++ []) ++ [] ++ []).
  eapply logs_bind_inr.
  { eapply logs_bind_inr; [apply logs_emit|apply logs_ret]. }
  eapply logs_bind_inr; [apply (ranges_loop needle [])|]. simpl.
  fold (ranges_of target needle).
  assert (0 < length (ranges_of target needle) ↔ findAll target needle ≠ [])
    as Hlen.
  { unfold ranges_of. destruct (findAll target needle); simpl; [|split; [done|lia]].
    split; [lia|done]. }
  repeat case_decide; try apply logs_ret; tauto.
Qed.

(** Any other case raises a [TypeError], after at most one search. *)
Lemma search_case_invalid results case :
  ¬ valid_case case →
  ∃ msg evs, logs (search_case results case) (inl (TypeError msg)) evs
             ∧ Forall is_search evs.
Proof.
  destruct case as [[|target|c] [|[d mt]|c']]; simpl; intros Hv;
    try (eexists _, []; split; [apply logs_raise|constructor]).
  destruct d as [|needle|c]; [|done|];
    (eexists _, [_]; split;
     [ apply logs_bind_inl;
       change [?e] with ([e] ++ []);
       eapply logs_bind_inr; [apply logs_emit|apply logs_raise]
     | by repeat constructor ]).
Qed.

Lemma valid_case_dec case : {valid_case case} + {¬ valid_case case}.
Proof.
  destruct case as [[|?|?] [|[[|?|?] ?]|?]]; simpl;
    first [left; exact I | right; intros []].
Qed.

Lemma search_case_logs results case :
  ∃ o evs, logs (search_case results case) o evs ∧ Forall is_search evs.
Proof.
  destruct (valid_case_dec case) as [Hv|Hv].
  - destruct case as [[|target|?] [|[[|needle|?] mt]|?]]; try done.
    eexists _, _. split; [by eapply search_case_valid|by repeat constructor].
  - destruct (search_case_invalid results case Hv) as (msg & evs & ? & ?).
    by eexists _, _.
Qed.

Lemma search_logs cases :
  ∃ o evs, logs (__search cases) o evs ∧ Forall is_search evs.
Proof.
  destruct cases as [cases|]; simpl.
  - apply logs_foldM, search_case_logs.
  - eexists _, []. split; [apply logs_raise|constructor].
Qed.

(** *** The loop of [__search] *)

Lemma logs_ext {A} (m m' : M A) o evs :
  (∀ w, m w = m' w) → logs m o evs → logs m' o evs.
Proof. intros E H w. rewrite <- E. apply H. Qed.

(** What a finished loop has appended: results with a non-empty range list,
    one for some of the tasks, in the order of the tasks; and every case was
    valid and searched once. *)
Lemma foldM_search_case_inr cases acc rs evs :
  logs (foldM search_case acc cases) (inr rs) evs →
  ∃ new, rs = acc ++ new
    ∧ Forall (λ r, SearchResult.ranges r ≠ []) new
    ∧ (PyInst ∘ SearchResult.searchTask <$> new) `sublist_of` cases.*2
    ∧ Forall valid_case cases
    ∧ evs = cases ≫= search_event.
Proof.
  revert acc evs; induction cases as [|case cases IH]; intros acc evs Hl.
  - destruct (logs_inj _ _ _ _ _ Hl (logs_ret acc)) as [[= ->] ->].
    exists []. by rewrite app_nil_r.
  - simpl in Hl. destruct (valid_case_dec case) as [Hv|Hv].
    + destruct case as [[|target|?] [|searchTask|?]]; try done.
      simpl in Hv.
      destruct (SearchTask.data searchTask) as [|needle|?] eqn:Hd; try done.
      pose proof (search_case_valid acc target searchTask needle Hd) as Hc.
      set (acc' := if decide (findAll target needle = []) then acc else _) in Hc.
      assert (∃ evs', logs (foldM search_case acc' cases) (inr rs) evs'
                      ∧ evs = [EvSearch target (PyInst needle)] ++ evs')
        as (evs' & Hl' & ->).
      { destruct (logs_foldM is_search search_case cases
                    (λ a x, search_case_logs a x) acc') as (o & evs' & Hl' & _).
        pose proof (logs_bind_inr _ (λ a, foldM search_case a cases)
                      _ _ _ _ Hc Hl') as Hb.
        destruct (logs_inj _ _ _ _ _ Hl Hb) as [<- ->]. by exists evs'. }
      destruct (IH _ _ Hl') as (new & -> & Hne & Hsub & Hvs & ->).
      unfold acc'. case_decide as Hf.
      * exists new. split_and!; try done.
        -- simpl. by apply sublist_cons.
        -- by constructor; [simpl; rewrite Hd|].
        -- simpl. by rewrite Hd.
      * exists (SearchResult.mk target searchTask (ranges_of target needle) :: new).
        split_and!.
        -- by rewrite <- app_assoc.
        -- constructor; [|done]. simpl. unfold ranges_of.
           by destruct (findAll target needle).
        -- simpl. by apply sublist_skip.
        -- by constructor; [simpl; rewrite Hd|].
        -- simpl. by rewrite Hd.
    + destruct (search_case_invalid acc case Hv) as (msg & evs' & Hc & _).
      pose proof (logs_bind_inl _ (λ acc', foldM search_case acc' cases) _ _ Hc)
        as Hb.
      by destruct (logs_inj _ _ _ _ _ Hl Hb) as [? _].
Qed.

Lemma foldM_search_case_never cases acc :
  Forall never_occurs cases →
  logs (foldM search_case acc cases) (inr acc) (cases ≫= search_event).
Proof.
  induction 1 as [|case cases Hc _ IH]; simpl; [apply logs_ret|].
  destruct case as [[|target|?] [|searchTask|?]]; try done. simpl in Hc.
  destruct (SearchTask.data searchTask) as [|needle|?] eqn:Hd; try done.
  eapply logs_bind_inr; [|apply IH].
  pose proof (search_case_valid acc target searchTask needle Hd) as Hv.
  rewrite decide_True in Hv by done. cbn [search_event]. by rewrite Hd.
Qed.

(** An invalid case anywhere makes the whole loop raise. *)
Lemma foldM_search_case_invalid pre bad post acc :
  ¬ valid_case bad →
  ∃ e evs, logs (foldM search_case acc (pre ++ bad :: post)) (inl e) evs.
Proof.
  intros Hv.
  destruct (logs_foldM is_search search_case pre
              (λ a x, search_case_logs a x) acc) as ([e|acc'] & evs & Hl & _).
  - exists e, evs. eapply logs_ext; [intros w; symmetry; apply foldM_app|].
    by apply logs_bind_inl.
  - destruct (search_case_invalid acc' bad Hv) as (msg & evs' & Hc & _).
    exists (TypeError msg), (evs ++ evs').
    eapply logs_ext; [intros w; symmetry; apply foldM_app|].
    eapply logs_bind_inr; [done|]. simpl. by apply logs_bind_inl.
Qed.


(** *** Annotating *)

Lemma tagged_nil m : tagged [] m = m.
Proof. destruct m; unfold tagged; simpl. by rewrite app_nil_r. Qed.

Lemma tagged_app hl1 hl2 m : tagged hl2 (tagged hl1 m) = tagged (hl1 ++ hl2) m.
Proof. unfold tagged; simpl. by rewrite app_assoc. Qed.

Lemma annotates_nil message w : annotates message [] w w.
Proof.
  unfold annotates; simpl. by rewrite app_nil_r, tagged_nil.
Qed.

Lemma annotates_app message hl1 hl2 w1 w2 w3 :
  annotates message hl1 w1 w2 → annotates message hl2 w2 w3 →
  annotates message (hl1 ++ hl2) w1 w3.
Proof.
  intros (E1 & M1 & O1) (E2 & M2 & O2). split_and!.
  - by rewrite E2, E1, fmap_app, app_assoc.
  - by rewrite M2, M1, tagged_app.
  - intros l Hl. by rewrite O2, O1.
Qed.

Lemma append_annotates message f w :
  ∃ w', append_visualizationFunction message f w = (inr tt, w')
        ∧ annotates message [f] w w'.
Proof.
  eexists. split; [done|]. split_and!; simpl.
  - done.
  - apply fn_lookup_alter.
  - intros l Hl. by apply fn_lookup_alter_ne.
Qed.

(** A loop whose body annotates, annotates. *)
Lemma for_each_annotates {B} message (hl : B → list HighlightFunction)
    (body : B → M unit) xs :
  (∀ x w, ∃ w', body x w = (inr tt, w') ∧ annotates message (hl x) w w') →
  ∀ w, ∃ w', for_each xs body w = (inr tt, w')
             ∧ annotates message (xs ≫= hl) w w'.
Proof.
  intros Hbody. unfold for_each.
  induction xs as [|x xs IH]; intros w; simpl.
  - exists w. split; [done|apply annotates_nil].
  - unfold bind. destruct (Hbody x w) as (w1 & -> & H1).
    destruct (IH w1) as (w2 & -> & H2).
    exists w2. split; [done|]. by eapply annotates_app.
Qed.

Lemma product_singleton {A B} (x : A) (ys : list B) :
  product [x] ys = pair x <$> ys.
Proof.
  unfold product. rewrite bind_singleton.
  induction ys as [|y ys IH]; [done|]. rewrite bind_cons, fmap_cons. by rewrite IH.
Qed.

Lemma snd_pair_fmap {A B} (x : A) (ys : list B) : (pair x <$> ys).*2 = ys.
Proof. induction ys as [|y ys IH]; [done|]. rewrite !fmap_cons. by f_equal. Qed.

Section SearchEngineFacts.
Context {D T : Type}.
Variable normalize : D → exn + option T.
Variable mutate : T → exn + gmap string (pyval bitarray).
Variable convert : string → exn + pyval bitarray.

Lemma annotate_phase_annotates message rs w :
  ∃ w', annotate_phase message rs w = (inr tt, w')
        ∧ annotates message (highlights rs) w w'.
Proof.
  apply (for_each_annotates message
           (λ r, range ← SearchResult.ranges r; [Highlight range.1 range.2])).
  intros r. apply (for_each_annotates message (λ range, [Highlight range.1 range.2])).
  intros range. apply append_annotates.
Qed.

(** [searchDataInMessage] is its search phase on the content of the message,
    then, if asked for, its annotation phase. *)
Lemma searchDataInMessage_phases data message addTags w :
  searchDataInMessage normalize mutate convert (Some data) (Some message)
                      addTags w =
  (let* searchResults :=
     search_phase normalize mutate convert data
                  (AbstractMessage.data (messages w message)) in
   (if addTags then annotate_phase message searchResults else ret tt);;
   ret searchResults) w.
Proof.
  unfold searchDataInMessage, search_phase, bind, emit, lift, deref; simpl.
  destruct (normalize data) as [e|normedData]; [done|].
  destruct (buildSearchTasks mutate normedData _) as [[e|searchTasks] w1] eqn:Eb;
    [done|].
  assert (messages w1 = messages w) as Hm.
  { destruct normedData as [t|]; simpl in Eb; [|done].
    unfold bind, emit, lift, ret in Eb; simpl in Eb.
    destruct (mutate t); [done|]. by injection Eb as _ <-. }
  rewrite Hm. by destruct (convert _).
Qed.

Lemma buildSearchTasks_logs normedData :
  match normedData with
  | None =>
      logs (buildSearchTasks mutate None)
           (inl (TypeError "The data cannot be None")) []
  | Some t =>
      logs (buildSearchTasks mutate (Some t))
           (match mutate t with
            | inl e => inl e
            | inr mutations => inr (tasks_of mutations)
            end) [EvMutate]
  end.
Proof.
  destruct normedData as [t|]; simpl; [|apply logs_raise].
  intros w. unfold bind, emit, lift, ret; simpl. by destruct (mutate t).
Qed.

(** The search phase only logs; its trace up to the searches. *)
Lemma search_phase_cases data raw :
  match normalize data with
  | inl e => logs (search_phase normalize mutate convert data raw) (inl e)
                  [EvNormalize]
  | inr None =>
      logs (search_phase normalize mutate convert data raw)
           (inl (TypeError "The data cannot be None")) [EvNormalize]
  | inr (Some t) =>
      match mutate t with
      | inl e => logs (search_phase normalize mutate convert data raw) (inl e)
                      [EvNormalize; EvMutate]
      | inr mutations =>
          match convert raw with
          | inl e => logs (search_phase normalize mutate convert data raw)
                          (inl e) [EvNormalize; EvMutate; EvConvert raw]
          | inr target =>
              ∀ o evs,
                logs (foldM search_case []
                        (pair target <$> (PyInst <$> tasks_of mutations))) o evs →
                logs (search_phase normalize mutate convert data raw) o
                     ([EvNormalize; EvMutate; EvConvert raw] ++ evs)
          end
      end
  end.
Proof.
  unfold search_phase.
  destruct (normalize data) as [e|[t|]].
  - by intros w.
  - pose proof (buildSearchTasks_logs (Some t)) as Hb. cbv beta iota in Hb.
    destruct (mutate t) as [e|mutations].
    + intros w. unfold bind, emit, lift. cbn -[buildSearchTasks].
      rewrite Hb; simpl. by rewrite <- !app_assoc.
    + destruct (convert raw) as [e|target].
      * intros w. unfold bind, emit, lift. cbn -[buildSearchTasks].
        rewrite Hb; simpl. by rewrite <- !app_assoc.
      * intros o evs Hs w. unfold bind, emit, lift.
        cbn -[buildSearchTasks product].
        rewrite Hb. cbn -[product]. rewrite product_singleton, Hs; simpl.
        by rewrite <- !app_assoc.
  - by intros w.
Qed.

Lemma search_phase_logs data raw :
  ∃ o evs, logs (search_phase normalize mutate convert data raw) o evs
           ∧ Forall (λ e, ¬ is_highlight e) evs.
Proof.
  pose proof (search_phase_cases data raw) as H.
  assert (∀ evs, Forall is_search evs → Forall (λ e, ¬ is_highlight e) evs)
    as Hsh.
  { intros evs Hs. eapply Forall_impl; [done|]. by intros [] ? ?. }
  assert (Forall (λ e, ¬ is_highlight e) [EvNormalize; EvMutate; EvConvert raw])
    as Hpre by (repeat constructor; intros []).
  destruct (normalize data) as [e|[t|]];
    [eexists _, _; split; [exact H|repeat constructor; intros []]| |
     eexists _, _; split; [exact H|repeat constructor; intros []]].
  destruct (mutate t) as [e|mutations];
    [eexists _, _; split; [exact H|repeat constructor; intros []]|].
  destruct (convert raw) as [e|target];
    [eexists _, _; split; [exact H|exact Hpre]|].
  destruct (logs_foldM is_search search_case
              (pair target <$> (PyInst <$> tasks_of mutations))
              (λ a x, search_case_logs a x) []) as (o & evs & Hl & Hs).
  eexists _, _. split; [by apply H|].
  apply Forall_app. split; [exact Hpre|by apply Hsh].
Qed.

(** A finished search phase: both collaborators and every search
    succeeded, and the trace is the three calls followed by one search for
    each task. *)
Lemma search_phase_inr data raw rs evs :
  logs (search_phase normalize mutate convert data raw) (inr rs) evs →
  ∃ t mutations target,
    normalize data = inr (Some t) ∧ mutate t = inr mutations
    ∧ convert raw = inr target
    ∧ Forall valid_case (pair target <$> (PyInst <$> tasks_of mutations))
    ∧ evs = [EvNormalize; EvMutate; EvConvert raw] ++
            ((pair target <$> (PyInst <$> tasks_of mutations)) ≫= search_event)
    ∧ Forall (λ r, SearchResult.ranges r ≠ []) rs
    ∧ (SearchResult.searchTask <$> rs) `sublist_of` tasks_of mutations.
Proof.
  intros Hl. pose proof (search_phase_cases data raw) as H.
  destruct (normalize data) as [e|[t|]] eqn:En;
    [by destruct (logs_inj _ _ _ _ _ Hl H)| |
     by destruct (logs_inj _ _ _ _ _ Hl H)].
  destruct (mutate t) as [e|mutations] eqn:Em;
    [by destruct (logs_inj _ _ _ _ _ Hl H)|].
  destruct (convert raw) as [e|target] eqn:Ec;
    [by destruct (logs_inj _ _ _ _ _ Hl H)|].
  destruct (logs_foldM is_search search_case
              (pair target <$> (PyInst <$> tasks_of mutations))
              (λ a x, search_case_logs a x) []) as (o & evs' & Hf & _).
  destruct (logs_inj _ _ _ _ _ Hl (H _ _ Hf)) as [<- ->].
  destruct (foldM_search_case_inr _ _ _ _ Hf) as (new & -> & Hne & Hsub & Hv & ->).
  exists t, mutations, target. split_and!; try done.
  rewrite snd_pair_fmap in Hsub.
  apply (fmap_sublist (λ v, match v with
                            | PyInst task => task
                            | _ => SearchTask.mk PyNone ""
                            end)) in Hsub.
  rewrite <- !list_fmap_compose in Hsub.
  change ((SearchResult.searchTask <$> new)
            `sublist_of` (id <$> tasks_of mutations)) in Hsub.
  by rewrite list_fmap_id in Hsub.
Qed.

(** The whole call: the search phase, which only logs, then the
    annotations of its results if they were asked for. *)
Lemma searchDataInMessage_run data message addTags w :
  ∃ o evs w',
    logs (search_phase normalize mutate convert data
            (AbstractMessage.data (messages w message))) o evs
    ∧ Forall (λ e, ¬ is_highlight e) evs
    ∧ searchDataInMessage normalize mutate convert (Some data) (Some message)
                          addTags w = (o, w')
    ∧ annotates message (if addTags then highlights_of o else [])
                (World (messages w) (events w ++ evs)) w'.
Proof.
  destruct (search_phase_logs data (AbstractMessage.data (messages w message)))
    as (o & evs & Hl & Hnh).
  rewrite searchDataInMessage_phases. unfold bind. rewrite Hl.
  destruct o as [e|rs].
  - eexists _, _, _. split_and!; try done.
    destruct addTags; apply annotates_nil.
  - destruct addTags.
    + destruct (annotate_phase_annotates message rs
                  (World (messages w) (events w ++ evs))) as (w' & -> & Ha).
      by eexists _, _, _.
    + eexists _, _, _. split_and!; try done. apply annotates_nil.
Qed.

End SearchEngineFacts.

(** *** Cases that leave the results as they are *)

Lemma never_occurs_valid case : never_occurs case → valid_case case.
Proof.
  destruct case as [[|target|?] [|searchTask|?]]; simpl; try done.
  by destruct (SearchTask.data searchTask).
Qed.

Lemma foldM_search_case_skip pre case post acc :
  never_occurs case →
  ∃ o evs1 evs2,
    logs (foldM search_case acc (pre ++ case :: post)) o evs1
    ∧ logs (foldM search_case acc (pre ++ post)) o evs2.
Proof.
  intros Hn.
  destruct (logs_foldM is_search search_case pre
              (λ a x, search_case_logs a x) acc) as ([e|acc'] & evs & Hl & _).
  - exists (inl e), evs, evs. split.
    + eapply logs_ext; [intros w; symmetry; apply foldM_app|].
      by apply logs_bind_inl.
    + eapply logs_ext; [intros w; symmetry; apply foldM_app|].
      by apply logs_bind_inl.
  - destruct (logs_foldM is_search search_case post
                (λ a x, search_case_logs a x) acc') as (o & evs' & Hl' & _).
    pose proof (foldM_search_case_never [case] acc'
                  (proj2 (Forall_singleton _ _) Hn)) as Hc.
    exists o, (evs ++ ([case] ≫= search_event) ++ evs'), (evs ++ evs'). split.
    + eapply logs_ext; [intros w; symmetry; apply foldM_app|].
      eapply logs_bind_inr; [done|].
      eapply (logs_ext (bind (foldM search_case acc' [case])
                             (λ a, foldM search_case a post))).
      { intros w. by rewrite <- foldM_app. }
      by eapply logs_bind_inr.
    + eapply logs_ext; [intros w; symmetry; apply foldM_app|].
      by eapply logs_bind_inr.
Qed.

Lemma foldM_search_case_valid cases acc :
  Forall valid_case cases →
  ∃ rs evs, logs (foldM search_case acc cases) (inr rs) evs.
Proof.
  intros Hv. revert acc. induction Hv as [|case cases Hc _ IH]; intros acc.
  - exists acc, []. apply logs_ret.
  - destruct case as [[|target|?] [|searchTask|?]]; try done. simpl in Hc.
    destruct (SearchTask.data searchTask) as [|needle|?] eqn:Hd; try done.
    pose proof (search_case_valid acc target searchTask needle Hd) as Hs.
    destruct (IH (if decide (findAll target needle = []) then acc
                  else acc ++ [SearchResult.mk target searchTask
                                 (ranges_of target needle)]))
      as (rs & evs & Hl).
    exists rs, ([EvSearch target (PyInst needle)] ++ evs).
    by eapply (logs_bind_inr _ (λ a, foldM search_case a cases)).
Qed.

(** * The claims *)

(** C1, as the code has it.  The failure of one search case is the failure
    of the whole call: if a case of the sequence is not a bitarray with a
    [SearchTask] whose bits are a bitarray, [__search] raises, whatever the
    cases before it have matched, and returns no results at all; when the
    cases before it are valid the exception is a [TypeError]. *)
Theorem C1_invalid_case_fails_the_call
    (pre post : list (pyval bitarray * pyval SearchTask.t))
    (bad : pyval bitarray * pyval SearchTask.t) (w : world) :
  ¬ valid_case bad →
  ∃ e, (__search (Some (pre ++ bad :: post)) w).1 = inl e
       ∧ (Forall valid_case pre → ∃ msg, e = TypeError msg).
Proof.
  intros Hbad. simpl.
  destruct (foldM_search_case_invalid pre bad post [] Hbad) as (e & evs & Hl).
  exists e. split; [by rewrite Hl|].
  intros Hpre.
  destruct (foldM_search_case_valid pre [] Hpre) as (rs & evs1 & Hl1).
  destruct (search_case_invalid rs bad Hbad) as (msg & evs2 & Hl2 & _).
  exists msg.
  assert (logs (foldM search_case [] (pre ++ bad :: post))
               (inl (TypeError msg)) (evs1 ++ evs2)) as Hl'.
  { eapply logs_ext; [intros w'; symmetry; apply foldM_app|].
    eapply logs_bind_inr; [done|]. simpl. by apply logs_bind_inl. }
  by destruct (logs_inj _ _ _ _ _ Hl Hl') as [[= ->] _].
Qed.

(** The first task alone matches twice and is reported; followed by a case
    whose task is [None], the call raises and reports nothing. *)
Lemma C1_counterexample :
  let target := [true; false; true; false; true; false] in
  let task := SearchTask.mk (PyInst [true; false; true; false]) "identity" in
  (__search (Some [(PyInst target, PyInst task)]) world0).1
    = inr [SearchResult.mk target task [(0, 4); (2, 6)]]
  ∧ (__search (Some [(PyInst target, PyInst task); (PyInst target, PyNone)])
              world0).1
    = inl (TypeError
        "Each search case must a tupple made of a bitarray and a SearchTask instance").
Proof. by vm_compute. Qed.

Lemma C1_witness :
  ¬ valid_case (PyInst [true; false], @PyNone SearchTask.t)
  ∧ ∃ e, (__search (Some ([(PyInst [true; false],
                           PyInst (SearchTask.mk (PyInst [true]) "identity"))]
                         ++ (PyInst [true; false], PyNone) :: []))
                   world0).1 = inl e
         ∧ (Forall valid_case
              [(PyInst [true; false],
                PyInst (SearchTask.mk (PyInst [true]) "identity"))] →
            ∃ msg, e = TypeError msg).
Proof.
  split; [by intros []|].
  apply C1_invalid_case_fails_the_call. by intros [].
Defined.

(** C2.  For every haystack and every non-empty needle the matcher reports
    exactly the start offsets [i] with
    [haystack[i : i+len(needle)] == needle], overlapping occurrences
    included, each once and in ascending order. *)
Theorem C2_findAll_reports_every_offset (haystack needle : bitarray) :
  needle ≠ [] →
  (∀ i, i ∈ findAll haystack needle
        ↔ slice haystack i (i + length needle) = needle)
  ∧ StronglySorted lt (findAll haystack needle).
Proof.
  intros Hn. split; [|apply findAll_sorted].
  intros i. by apply findAll_elem.
Qed.

(** Needle 1010 inside haystack 101010: offsets 0 and 2. *)
Lemma C2_witness :
  [true; false; true; false] ≠ []
  ∧ findAll [true; false; true; false; true; false] [true; false; true; false]
    = [0; 2]
  ∧ (∀ i, i ∈ findAll [true; false; true; false; true; false]
                      [true; false; true; false]
          ↔ slice [true; false; true; false; true; false] i
                  (i + length [true; false; true; false])
            = [true; false; true; false])
  ∧ StronglySorted lt (findAll [true; false; true; false; true; false]
                               [true; false; true; false]).
Proof.
  split; [done|]. split; [reflexivity|].
  by apply C2_findAll_reports_every_offset.
Defined.

(** C3.  A needle of zero length never matches: the matcher returns no
    offset, the iteration of [__search] for a task with empty bits leaves the
    results as they are, and the call returns what it returns without that
    task. *)
Theorem C3_empty_needle_never_matches (haystack : bitarray)
    (mutationType : string) (w : world) :
  findAll haystack [] = []
  ∧ (∀ results,
       search_case results
         (PyInst haystack, PyInst (SearchTask.mk (PyInst []) mutationType)) w
       = (inr results,
          World (messages w) (events w ++ [EvSearch haystack (PyInst [])])))
  ∧ (∀ pre post,
       (__search (Some (pre ++ (PyInst haystack,
                                PyInst (SearchTask.mk (PyInst []) mutationType))
                            :: post)) w).1
       = (__search (Some (pre ++ post)) w).1).
Proof.
  split; [done|]. split; [done|].
  intros pre post. simpl.
  destruct (foldM_search_case_skip pre
              (PyInst haystack, PyInst (SearchTask.mk (PyInst []) mutationType))
              post []) as (o & evs1 & evs2 & H1 & H2); [done|].
  by rewrite H1, H2.
Qed.

(** C4.  Every [SearchResult] of the collection [__search] returns has a
    non-empty range list; a task whose bits never occur in the target
    contributes nothing, the call returns what it returns without it; and
    when no task matches the call returns the empty collection, it does not
    raise. *)
Theorem C4_no_match_no_result
    (cases : list (pyval bitarray * pyval SearchTask.t)) (w : world) :
  (∀ rs, (__search (Some cases) w).1 = inr rs →
         Forall (λ r, SearchResult.ranges r ≠ []) rs)
  ∧ (∀ pre case post,
       cases = pre ++ case :: post → never_occurs case →
       (__search (Some cases) w).1 = (__search (Some (pre ++ post)) w).1)
  ∧ (Forall never_occurs cases → (__search (Some cases) w).1 = inr []).
Proof.
  split_and!.
  - intros rs Hrs.
    destruct (search_logs (Some cases)) as (o & evs & Hl & _).
    rewrite Hl in Hrs. simpl in Hrs, Hl. subst o.
    by destruct (foldM_search_case_inr _ _ _ _ Hl) as (new & -> & Hne & _).
  - intros pre case post -> Hn. simpl.
    destruct (foldM_search_case_skip pre case post [] Hn)
      as (o & evs1 & evs2 & H1 & H2).
    by rewrite H1, H2.
  - intros Hn. simpl. by rewrite (foldM_search_case_never cases [] Hn).
Qed.

(** Neither "zz" nor "ba" occurs in "abcab": no result. *)
Lemma C4_witness :
  let target := PyInst (bits_of_string "abcab") in
  let cases :=
    [(target, PyInst (SearchTask.mk (PyInst (bits_of_string "zz")) "identity"));
     (target, PyInst (SearchTask.mk (PyInst (bits_of_string "ba")) "reversed"))]
  in
  Forall never_occurs cases ∧ (__search (Some cases) world0).1 = inr [].
Proof.
  assert (Forall never_occurs
    [(PyInst (bits_of_string "abcab"),
      PyInst (SearchTask.mk (PyInst (bits_of_string "zz")) "identity"));
     (PyInst (bits_of_string "abcab"),
      PyInst (SearchTask.mk (PyInst (bits_of_string "ba")) "reversed"))])
    as Hn by (repeat constructor).
  split; [exact Hn|].
  exact (proj2 (proj2 (C4_no_match_no_result _ world0)) Hn).
Defined.

Section Claims.
Context {D T : Type}.
Variable normalize : D → exn + option T.
Variable mutate : T → exn + gmap string (pyval bitarray).
Variable convert : string → exn + pyval bitarray.

(** C5.  If the reference value or the target message is absent the call
    raises a [TypeError] (the [InvalidInputError] of the specification) and
    nothing else has happened: the world is the one before the call, no
    collaborator was called, no search was run, no annotation was added.
    [buildSearchTasks] refuses an absent value in the same way. *)
Theorem C5_absent_input_raises_before_any_work (data : option D)
    (message : option loc) (addTags : bool) (w : world) :
  data = None ∨ message = None →
  (∃ msg, searchDataInMessage normalize mutate convert data message addTags w
          = (inl (TypeError msg), w))
  ∧ buildSearchTasks mutate None w
    = (inl (TypeError "The data cannot be None"), w).
Proof.
  intros Habsent. split; [|done].
  destruct data as [d|]; [|by eexists].
  destruct message as [l|]; [|by eexists].
  by destruct Habsent.
Qed.

Lemma tasks_of_labels (mutations : gmap string (pyval bitarray)) :
  NoDup (SearchTask.mutationType <$> tasks_of mutations).
Proof.
  unfold tasks_of. rewrite <- list_fmap_compose.
  apply (NoDup_fst_map_to_list mutations).
Qed.

Lemma search_phase_keys data raw rs evs :
  logs (search_phase normalize mutate convert data raw) (inr rs) evs →
  NoDup (result_key <$> rs).
Proof.
  intros Hl.
  destruct (search_phase_inr normalize mutate convert _ _ _ _ Hl)
    as (t & mutations & target & _ & _ & _ & _ & _ & _ & Hsub).
  apply (NoDup_fmap_1 fst). rewrite <- list_fmap_compose.
  apply (fmap_sublist SearchTask.mutationType) in Hsub.
  rewrite <- list_fmap_compose in Hsub.
  exact (sublist_NoDup _ _ (tasks_of_labels mutations) Hsub).
Qed.

(** C6.  The search is a function of the reference value and of the content
    of the target message: run again in the world the first run has left, it
    returns the same outcome, the same results in the same order, and so it
    does in any world in which the message has the same content; and no
    collection has two results with the same mutation label and ranges. *)
Theorem C6_search_is_deterministic (data : option D) (message : option loc)
    (addTags : bool) (w : world) :
  let r1 := searchDataInMessage normalize mutate convert data message addTags w in
  let r2 :=
    searchDataInMessage normalize mutate convert data message addTags r1.2 in
  r2.1 = r1.1
  ∧ (∀ w2, (∀ l, AbstractMessage.data (messages w2 l)
                 = AbstractMessage.data (messages w l)) →
           (searchDataInMessage normalize mutate convert data message addTags
                                w2).1 = r1.1)
  ∧ (∀ rs, r1.1 = inr rs → NoDup (result_key <$> rs)).
Proof.
  destruct data as [d|]; [|done]. destruct message as [l|]; [|done].
  destruct (searchDataInMessage_run normalize mutate convert d l addTags w)
    as (o & evs & w' & Hl & _ & Hrun & Ha).
  assert (∀ w2, AbstractMessage.data (messages w2 l)
                = AbstractMessage.data (messages w l) →
                (searchDataInMessage normalize mutate convert (Some d) (Some l)
                                     addTags w2).1 = o) as Hdet.
  { intros w2 Hsame.
    destruct (searchDataInMessage_run normalize mutate convert d l addTags w2)
      as (o2 & evs2 & w2' & Hl2 & _ & Hrun2 & _).
    rewrite Hsame in Hl2. rewrite Hrun2. simpl.
    by destruct (logs_inj _ _ _ _ _ Hl Hl2). }
  cbv zeta. rewrite Hrun. cbn [fst snd]. split_and!.
  - apply Hdet. destruct Ha as (_ & -> & _). done.
  - intros w2 Hsame. by apply Hdet.
  - intros rs ->. by eapply search_phase_keys.
Qed.

(** C7.  After a search call every message has the content it had before;
    the only change to the store is that annotations were appended to the
    target message, and none when annotation was not asked for. *)
Theorem C7_message_content_is_unchanged (data : option D)
    (message : option loc) (addTags : bool) (w : world) :
  let w' :=
    (searchDataInMessage normalize mutate convert data message addTags w).2 in
  (∀ l, AbstractMessage.data (messages w' l)
        = AbstractMessage.data (messages w l))
  ∧ (∀ l, ∃ hl, messages w' l = tagged hl (messages w l)
                ∧ (addTags = false ∨ message ≠ Some l → hl = [])).
Proof.
  assert (∀ w' : world,
    (∀ l, ∃ hl, messages w' l = tagged hl (messages w l)
                ∧ (addTags = false ∨ message ≠ Some l → hl = [])) →
    (∀ l, AbstractMessage.data (messages w' l)
          = AbstractMessage.data (messages w l))
    ∧ (∀ l, ∃ hl, messages w' l = tagged hl (messages w l)
                  ∧ (addTags = false ∨ message ≠ Some l → hl = []))) as Hdata.
  { intros w' H. split; [|done]. intros l. by destruct (H l) as (hl & -> & _). }
  assert (∀ l, ∃ hl, messages w l = tagged hl (messages w l)
                     ∧ (addTags = false ∨ message ≠ Some l → hl = [])) as Hsame.
  { intros l. exists []. by rewrite tagged_nil. }
  destruct data as [d|]; [|by apply Hdata].
  destruct message as [m|]; [|by apply Hdata].
  destruct (searchDataInMessage_run normalize mutate convert d m addTags w)
    as (o & evs & w' & _ & _ & Hrun & (_ & Hm & Hother)).
  cbv zeta. rewrite Hrun. cbn [snd]. apply Hdata. intros l.
  destruct (decide (l = m)) as [->|Hne].
  - eexists. split; [exact Hm|]. by intros [->|?].
  - exists []. rewrite tagged_nil. split; [by apply Hother|done].
Qed.

Lemma valid_cases_events (target' : pyval bitarray) (tasks : list SearchTask.t) :
  Forall valid_case (pair target' <$> (PyInst <$> tasks)) → tasks ≠ [] →
  ∃ target, target' = PyInst target
    ∧ (pair target' <$> (PyInst <$> tasks)) ≫= search_event
      = (λ task, EvSearch target (SearchTask.data task)) <$> tasks.
Proof.
  intros Hv Hne. destruct tasks as [|task0 tasks]; [done|].
  destruct target' as [|target|?];
    [by apply Forall_cons_1 in Hv as [? _]| |
     by apply Forall_cons_1 in Hv as [? _]].
  exists target. split; [done|]. clear Hv Hne.
  induction (task0 :: tasks) as [|task l IH]; [done|].
  rewrite !fmap_cons, bind_cons, IH. done.
Qed.

Lemma highlights_nil_inv rs : highlights rs ≠ [] → rs ≠ [].
Proof. by intros H ->. Qed.

(** C9.  The trace of a search call is the work of the search followed by
    the annotations: no annotation precedes an event of the search.  If an
    annotation was appended at all, the search was complete before the first
    one: the three collaborators had returned, every task had been searched,
    and the annotations are those of the results the call returns.  The
    results do not depend on annotating: they are those of the call that does
    not annotate. *)
Theorem C9_annotation_follows_the_search (data : option D)
    (message : option loc) (addTags : bool) (w : world) :
  let r := searchDataInMessage normalize mutate convert data message addTags w in
  ∃ work hl,
    events r.2 = events w ++ work ++ hl
    ∧ Forall (λ e, ¬ is_highlight e) work
    ∧ Forall is_highlight hl
    ∧ r.1 = (searchDataInMessage normalize mutate convert data message false w).1
    ∧ (hl ≠ [] →
       ∃ d l rs t mutations target,
         data = Some d ∧ message = Some l ∧ addTags = true
         ∧ r.1 = inr rs ∧ hl = EvHighlight l <$> highlights rs
         ∧ normalize d = inr (Some t) ∧ mutate t = inr mutations
         ∧ convert (AbstractMessage.data (messages w l)) = inr (PyInst target)
         ∧ work = [EvNormalize; EvMutate;
                   EvConvert (AbstractMessage.data (messages w l))]
                  ++ ((λ task, EvSearch target (SearchTask.data task))
                        <$> tasks_of mutations)).
Proof.
  cbv zeta.
  destruct data as [d|];
    [|exists [], []; by rewrite !app_nil_r].
  destruct message as [l|];
    [|exists [], []; by rewrite !app_nil_r].
  destruct (searchDataInMessage_run normalize mutate convert d l addTags w)
    as (o & evs & w' & Hl & Hnh & Hrun & (He & _ & _)).
  destruct (searchDataInMessage_run normalize mutate convert d l false w)
    as (o0 & evs0 & w0 & Hl0 & _ & Hrun0 & _).
  destruct (logs_inj _ _ _ _ _ Hl Hl0) as [<- <-].
  rewrite Hrun, Hrun0. cbn [fst snd]. simpl in He.
  exists evs, (EvHighlight l <$> (if addTags then highlights_of o else [])).
  split_and!; try done.
  - by rewrite He, app_assoc.
  - apply Forall_fmap, Forall_true. by intros ?.
  - intros Hhl. destruct addTags; [|done]. destruct o as [e|rs]; [done|].
    simpl in Hhl.
    destruct (search_phase_inr normalize mutate convert _ _ _ _ Hl)
      as (t & mutations & target' & En & Em & Ec & Hv & -> & _ & Hsub).
    assert (tasks_of mutations ≠ []) as Hne.
    { intros E. rewrite E in Hsub. apply sublist_nil_r in Hsub.
      destruct rs; [done|discriminate]. }
    destruct (valid_cases_events _ _ Hv Hne) as (target & -> & ->).
    by exists d, l, rs, t, mutations, target.
Qed.

Lemma length_highlights rs :
  length (highlights rs) = sum_list (length ∘ SearchResult.ranges <$> rs).
Proof.
  unfold highlights. induction rs as [|r rs IH]; [done|].
  rewrite bind_cons, length_app, IH, fmap_cons. simpl. f_equal.
  induction (SearchResult.ranges r) as [|range l IHl]; [done|].
  rewrite bind_cons, length_app, IHl. done.
Qed.

(** C10.  A call of [searchInMessage] that leaves [addTags] out is the call
    with [addTags=True]: when it returns, one annotation for each range of
    each result has been appended to the message; with [addTags=False] the
    store is left as it was. *)
Theorem C10_addTags_defaults_to_true (data : option D) (message : option loc)
    (w : world) :
  searchInMessage normalize mutate convert data message None w
  = searchInMessage normalize mutate convert data message (Some true) w
  ∧ (∀ l rs w',
       message = Some l →
       searchInMessage normalize mutate convert data message None w
       = (inr rs, w') →
       AbstractMessage.visualizationFunctions (messages w' l)
       = AbstractMessage.visualizationFunctions (messages w l) ++ highlights rs
       ∧ length (highlights rs)
         = sum_list (length ∘ SearchResult.ranges <$> rs))
  ∧ (∀ l, messages (searchInMessage normalize mutate convert data message
                                    (Some false) w).2 l
          = messages w l).
Proof.
  split; [done|]. unfold searchInMessage, default. cbn [from_option id]. split.
  - intros l rs w' -> Hr. split; [|apply length_highlights].
    destruct data as [d|]; [|done].
    destruct (searchDataInMessage_run normalize mutate convert d l true w)
      as (o & evs & w1 & _ & _ & Hrun & (_ & Hm & _)).
    rewrite Hrun in Hr. injection Hr as -> ->. by rewrite Hm.
  - intros l. destruct data as [d|]; [|done].
    destruct message as [m|]; [|done].
    destruct (searchDataInMessage_run normalize mutate convert d m false w)
      as (o & evs & w1 & _ & _ & Hrun & (_ & Hm & Hother)).
    rewrite Hrun. cbn [snd]. destruct (decide (l = m)) as [->|Hne].
    + by rewrite Hm, tagged_nil.
    + by apply Hother.
Qed.

End Claims.

(** C8.  The generator surfaces no mutation with an empty bit sequence, and
    [buildSearchTasks] builds its tasks from what the generator surfaces:
    every task has a non-empty bit sequence. *)
Theorem C8_no_task_from_an_empty_mutation {T : Type}
    (encodings : gmap string (T → option bitarray)) (value : T) (w : world) :
  (∀ label, expand encodings value !! label ≠ Some (PyInst []))
  ∧ ∃ tasks,
      buildSearchTasks (λ v, inr (expand encodings v)) (Some value) w
      = (inr tasks, World (messages w) (events w ++ [EvMutate]))
      ∧ Forall (λ task, ∃ b bits, SearchTask.data task = PyInst (b :: bits))
               tasks.
Proof.
  assert (∀ label x, expand encodings value !! label = Some x →
                     ∃ b bits, x = PyInst (b :: bits)) as Hne.
  { intros label x. unfold expand. rewrite lookup_omap.
    destruct (encodings !! label) as [encode|]; simpl; [|done].
    destruct (encode value) as [[|b bits]|]; try done.
    intros [= <-]. by exists b, bits. }
  split.
  - intros label Hl. by destruct (Hne _ _ Hl) as (b & bits & ?).
  - eexists. split; [done|].
    apply Forall_fmap, Forall_forall. intros [label x] Hin. simpl.
    apply elem_of_map_to_list in Hin. by apply (Hne label).
Qed.

(** The text instance called without a reference value. *)
Lemma C5_witness :
  (@None string = None ∨ Some (0 : loc) = None)
  ∧ (∃ msg, searchDataInMessage text_normalize text_mutate text_convert
              None (Some 0) true world0
            = (inl (TypeError msg), world0))
  ∧ buildSearchTasks text_mutate None world0
    = (inl (TypeError "The data cannot be None"), world0).
Proof.
  split; [by left|].
  apply C5_absent_input_raises_before_any_work. by left.
Defined.

(** "ab" searched twice in "abcab", with annotation: the second run, on
    the annotated message, returns what the first did, and the labels and
    ranges of the results are pairwise different. *)
Lemma C6_witness :
  let r1 := searchDataInMessage text_normalize text_mutate text_convert
              (Some "ab") (Some 0) true world0 in
  (searchDataInMessage text_normalize text_mutate text_convert
     (Some "ab") (Some 0) true r1.2).1 = r1.1
  ∧ ∃ rs, r1.1 = inr rs ∧ length rs = 2 ∧ NoDup (result_key <$> rs).
Proof.
  pose proof (C6_search_is_deterministic text_normalize text_mutate
                text_convert (Some "ab") (Some 0) true world0) as H.
  cbv zeta in H. destruct H as (Hagain & _ & Hkeys).
  cbv zeta. split; [exact Hagain|].
  eexists. split; [vm_compute; reflexivity|]. split; [reflexivity|].
  apply Hkeys. vm_compute. reflexivity.
Defined.

(** The same call leaves the content of the message and the other messages
    as they were. *)
Lemma C7_witness :
  let w' := (searchDataInMessage text_normalize text_mutate text_convert
               (Some "ab") (Some 0) true world0).2 in
  AbstractMessage.data (messages w' 0) = AbstractMessage.data (messages world0 0)
  ∧ messages w' 1 = messages world0 1.
Proof.
  pose proof (C7_message_content_is_unchanged text_normalize text_mutate
                text_convert (Some "ab") (Some 0) true world0) as H.
  cbv zeta in H. destruct H as [Hdata Htag].
  cbv zeta. split; [apply Hdata|].
  destruct (Htag 1) as (hl & E & Hnil).
  rewrite E, Hnil; [apply tagged_nil|]. right. discriminate.
Defined.

(** No encoding of the empty text has bits, so no task is built for it;
    the tasks for "a" all have bits. *)
Lemma C8_witness :
  (buildSearchTasks text_mutate (Some "") world0).1 = inr []
  ∧ (∀ label, expand text_encodings "a" !! label ≠ Some (PyInst []))
  ∧ ∃ tasks,
      buildSearchTasks text_mutate (Some "a") world0
      = (inr tasks, World (messages world0) (events world0 ++ [EvMutate]))
      ∧ Forall (λ task, ∃ b bits, SearchTask.data task = PyInst (b :: bits))
               tasks.
Proof.
  split; [vm_compute; reflexivity|].
  exact (C8_no_task_from_an_empty_mutation text_encodings "a" world0).
Defined.

(** The call that annotates: its annotations come last in the trace and are
    those of the results it returns. *)
Lemma C9_witness :
  let r := searchDataInMessage text_normalize text_mutate text_convert
             (Some "ab") (Some 0) true world0 in
  ∃ work hl,
    events r.2 = events world0 ++ work ++ hl ∧ hl ≠ []
    ∧ ∃ rs, r.1 = inr rs ∧ hl = EvHighlight 0 <$> highlights rs.
Proof.
  pose proof (C9_annotation_follows_the_search text_normalize text_mutate
                text_convert (Some "ab") (Some 0) true world0) as H.
  cbv zeta in H. destruct H as (work & hl & He & Hw & _ & _ & Himp).
  cbv zeta. exists work, hl. split; [exact He|].
  assert (hl ≠ []) as Hne.
  { intros ->. rewrite app_nil_r in He.
    assert (last (events (searchDataInMessage text_normalize text_mutate
                            text_convert (Some "ab") (Some 0) true world0).2)
            = Some (EvHighlight 0 (Highlight 24 32))) as Hlast
      by (vm_compute; reflexivity).
    rewrite He in Hlast. apply last_Some_elem_of in Hlast.
    rewrite Forall_forall in Hw. exact (Hw _ Hlast I). }
  split; [exact Hne|].
  destruct (Himp Hne) as (d & l & rs & t & m & tg & _ & Hl & _ & Hr & Hhl & _).
  injection Hl as <-. exists rs. split; [exact Hr|exact Hhl].
Defined.

(** The call without the keyword appends the four annotations of its two
    results. *)
Lemma C10_witness :
  ∃ rs w',
    searchInMessage text_normalize text_mutate text_convert
                    (Some "ab") (Some 0) None world0 = (inr rs, w')
    ∧ AbstractMessage.visualizationFunctions (messages w' 0)
      = AbstractMessage.visualizationFunctions (messages world0 0)
        ++ highlights rs
    ∧ length (highlights rs) = 4.
Proof.
  eexists _, _. split; [vm_compute; reflexivity|].
  pose proof (proj1 (proj2 (C10_addTags_defaults_to_true text_normalize
                              text_mutate text_convert (Some "ab") (Some 0)
                              world0))) as H.
  split; [|reflexivity].
  eapply H; [reflexivity|]. vm_compute. reflexivity.
Defined.

(** * Further properties of the engine *)

(** ** The results of [__search] *)

Lemma foldM_search_case_results cases acc :
  Forall valid_case cases →
  logs (foldM search_case acc cases) (inr (acc ++ (cases ≫= case_result)))
       (cases ≫= search_event).
Proof.
  intros Hv. revert acc. induction Hv as [|case cases Hc _ IH]; intros acc.
  - simpl. rewrite app_nil_r. apply logs_ret.
  - destruct case as [[|target|?] [|searchTask|?]]; try done. simpl in Hc.
    destruct (SearchTask.data searchTask) as [|needle|?] eqn:Hd; try done.
    pose proof (search_case_valid acc target searchTask needle Hd) as Hs.
    rewrite !bind_cons. cbn [case_result search_event]. rewrite Hd.
    eapply (logs_bind_inr _ (λ a, foldM search_case a cases)); [exact Hs|].
    case_decide.
    + apply IH.
    + rewrite app_assoc. apply IH.
Qed.

Lemma foldM_search_case_inr_results cases rs evs :
  logs (foldM search_case [] cases) (inr rs) evs →
  Forall valid_case cases ∧ rs = cases ≫= case_result
  ∧ evs = cases ≫= search_event.
Proof.
  intros Hl.
  destruct (foldM_search_case_inr _ _ _ _ Hl) as (_ & _ & _ & _ & Hv & _).
  pose proof (foldM_search_case_results cases [] Hv) as Hr.
  by destruct (logs_inj _ _ _ _ _ Hl Hr) as [[= ->] ->].
Qed.

Lemma search_inr_results cases w rs :
  (__search (Some cases) w).1 = inr rs →
  Forall valid_case cases ∧ rs = cases ≫= case_result.
Proof.
  intros Hrs. destruct (search_logs (Some cases)) as (o & evs & Hl & _).
  rewrite Hl in Hrs. simpl in Hrs, Hl. subst o.
  by destruct (foldM_search_case_inr_results _ _ _ Hl) as (? & ? & _).
Qed.

Lemma slice_bound (h n : bitarray) (i : nat) :
  n ≠ [] → slice h i (i + length n) = n → i + length n ≤ length h.
Proof.
  intros Hn E. apply (f_equal length) in E. unfold slice in E.
  rewrite length_take, length_drop in E.
  destruct n as [|b n]; [done|]. simpl in *. lia.
Qed.

Lemma ranges_of_sorted (target needle : bitarray) :
  StronglySorted lt (ranges_of target needle).*1.
Proof.
  unfold ranges_of. rewrite <- list_fmap_compose.
  change (StronglySorted lt (id <$> findAll target needle)).
  rewrite list_fmap_id. apply findAll_sorted.
Qed.

Lemma ranges_of_occurrence (target needle : bitarray) (range : nat * nat) :
  needle ≠ [] →
  range ∈ ranges_of target needle ↔ occurrence target needle range.
Proof.
  intros Hn. unfold ranges_of, occurrence. rewrite list_elem_of_fmap. split.
  - intros (s & -> & Hs). simpl. apply findAll_elem in Hs; [|done].
    split_and!; [done| |done]. by apply slice_bound.
  - destruct range as [s e]. simpl. intros (-> & _ & Hs).
    exists s. split; [done|]. by apply findAll_elem.
Qed.

Lemma case_result_ok case r : r ∈ case_result case → result_ok r.
Proof.
  destruct case as [[|target|?] [|searchTask|?]]; simpl;
    try by intros ?%elem_of_nil.
  destruct (SearchTask.data searchTask) as [|needle|?] eqn:Hd;
    try by intros ?%elem_of_nil.
  case_decide as Hf; [by intros ?%elem_of_nil|].
  intros ->%list_elem_of_singleton. exists needle. simpl.
  assert (needle ≠ []) as Hn by (by intros ->).
  split_and!; [done| | |apply ranges_of_sorted].
  - unfold ranges_of. by destruct (findAll target needle).
  - intros range. by apply ranges_of_occurrence.
Qed.

(** X1.  Every result of a call of [__search] that returns is well formed:
    the bits of its task are a bitarray, it has at least one range, and its
    ranges are exactly the pairs [(s, s + len(bits))] that lie within the
    target and at which the target has these bits, by ascending start. *)
Theorem X1_results_are_occurrences
    (cases : list (pyval bitarray * pyval SearchTask.t)) (w : world)
    (rs : SearchResults) :
  (__search (Some cases) w).1 = inr rs → Forall result_ok rs.
Proof.
  intros Hrs. destruct (search_inr_results _ _ _ Hrs) as [_ ->].
  apply Forall_forall. intros r (case & Hr & _)%list_elem_of_bind.
  by eapply case_result_ok.
Qed.

Lemma X1_witness :
  let target := [true; false; true; false; true; false] in
  let task := SearchTask.mk (PyInst [true; false; true; false]) "identity" in
  (__search (Some [(PyInst target, PyInst task)]) world0).1
  = inr [SearchResult.mk target task [(0, 4); (2, 6)]]
  ∧ Forall result_ok [SearchResult.mk target task [(0, 4); (2, 6)]].
Proof.
  split; [vm_compute; reflexivity|].
  apply (X1_results_are_occurrences
           [(PyInst [true; false; true; false; true; false],
             PyInst (SearchTask.mk (PyInst [true; false; true; false])
                                   "identity"))] world0).
  vm_compute. reflexivity.
Defined.

(** X2.  The results of a sequence of cases are those of its parts, one
    after the other: if [__search] returns on two sequences of cases, it
    returns on their concatenation the concatenation of the two result
    collections, and it returns on a concatenation only if it returns on
    both parts. *)
Theorem X2_results_of_a_concatenation
    (cases1 cases2 : list (pyval bitarray * pyval SearchTask.t)) (w : world) :
  (∀ rs1 rs2,
     (__search (Some cases1) w).1 = inr rs1 →
     (__search (Some cases2) w).1 = inr rs2 →
     (__search (Some (cases1 ++ cases2)) w).1 = inr (rs1 ++ rs2))
  ∧ (∀ rs,
       (__search (Some (cases1 ++ cases2)) w).1 = inr rs →
       ∃ rs1 rs2, rs = rs1 ++ rs2
         ∧ (__search (Some cases1) w).1 = inr rs1
         ∧ (__search (Some cases2) w).1 = inr rs2).
Proof.
  split.
  - intros rs1 rs2 H1 H2.
    destruct (search_inr_results _ _ _ H1) as [Hv1 ->].
    destruct (search_inr_results _ _ _ H2) as [Hv2 ->].
    simpl. rewrite (foldM_search_case_results (cases1 ++ cases2) []); simpl.
    + by rewrite bind_app.
    + by apply Forall_app.
  - intros rs Hrs. destruct (search_inr_results _ _ _ Hrs) as [Hv ->].
    apply Forall_app in Hv as [Hv1 Hv2].
    exists (cases1 ≫= case_result), (cases2 ≫= case_result).
    split; [by rewrite bind_app|]. simpl.
    by rewrite (foldM_search_case_results cases1 [] Hv1),
               (foldM_search_case_results cases2 [] Hv2).
Qed.

Lemma X2_witness :
  let target := PyInst (bits_of_string "abcab") in
  let c1 := (target, PyInst (SearchTask.mk (PyInst (bits_of_string "ab")) "identity")) in
  let c2 := (target, PyInst (SearchTask.mk (PyInst (bits_of_string "c")) "first")) in
  ∃ rs1 rs2,
    (__search (Some [c1]) world0).1 = inr rs1
    ∧ (__search (Some [c2]) world0).1 = inr rs2
    ∧ (__search (Some ([c1] ++ [c2])) world0).1 = inr (rs1 ++ rs2).
Proof.
  eexists _, _. split; [vm_compute; reflexivity|].
  split; [vm_compute; reflexivity|].
  apply (proj1 (X2_results_of_a_concatenation
    [(PyInst (bits_of_string "abcab"),
      PyInst (SearchTask.mk (PyInst (bits_of_string "ab")) "identity"))]
    [(PyInst (bits_of_string "abcab"),
      PyInst (SearchTask.mk (PyInst (bits_of_string "c")) "first"))]
    world0)); vm_compute; reflexivity.
Defined.

(** ** The trace of [__search] *)

Lemma search_case_invalid_event results case :
  ¬ valid_case case →
  ∃ msg, logs (search_case results case) (inl (TypeError msg))
              (search_event case).
Proof.
  destruct case as [[|target|c] [|[d mt]|c']]; simpl; intros Hv;
    try (eexists; apply logs_raise).
  destruct d as [|needle|c]; [|done|];
    (eexists; apply logs_bind_inl;
     change [?e] with ([e] ++ []);
     eapply logs_bind_inr; [apply logs_emit|apply logs_raise]).
Qed.

(** X3.  [__search] works through the cases in order and stops at the first
    one that is not valid.  When all cases are valid it searches each once
    and returns, for each in turn, nothing or its one result; otherwise it
    raises a [TypeError] having searched the cases before the invalid one
    and none after it.  It never changes a message. *)
Theorem X3_search_stops_at_the_first_invalid_case
    (cases : list (pyval bitarray * pyval SearchTask.t)) (w : world) :
  (Forall valid_case cases →
   __search (Some cases) w
   = (inr (cases ≫= case_result),
      World (messages w) (events w ++ (cases ≫= search_event))))
  ∧ (∀ pre bad post,
       cases = pre ++ bad :: post → Forall valid_case pre → ¬ valid_case bad →
       ∃ msg,
         __search (Some cases) w
         = (inl (TypeError msg),
            World (messages w)
                  (events w ++ (pre ≫= search_event) ++ search_event bad))).
Proof.
  split.
  - intros Hv. simpl. by rewrite (foldM_search_case_results cases [] Hv).
  - intros pre bad post -> Hpre Hbad.
    destruct (search_case_invalid_event (pre ≫= case_result) bad Hbad)
      as (msg & Hl).
    exists msg. simpl. rewrite foldM_app. unfold bind.
    rewrite (foldM_search_case_results pre [] Hpre). simpl.
    unfold bind. rewrite Hl. simpl. by rewrite app_assoc.
Qed.

Lemma X3_witness :
  let target := PyInst (bits_of_string "abcab") in
  let c1 := (target, PyInst (SearchTask.mk (PyInst (bits_of_string "ab")) "identity")) in
  let c3 := (target, PyInst (SearchTask.mk (PyInst (bits_of_string "c")) "first")) in
  Forall valid_case [c1] ∧ ¬ valid_case (target, @PyNone SearchTask.t)
  ∧ ∃ msg,
      __search (Some ([c1] ++ (target, PyNone) :: [c3])) world0
      = (inl (TypeError msg),
         World (messages world0)
               (events world0 ++ ([c1] ≫= search_event)
                  ++ search_event (target, PyNone))).
Proof.
  assert (Forall valid_case
    [(PyInst (bits_of_string "abcab"),
      PyInst (SearchTask.mk (PyInst (bits_of_string "ab")) "identity"))])
    as Hv by (repeat constructor).
  split; [exact Hv|]. split; [by intros []|].
  apply (proj2 (X3_search_stops_at_the_first_invalid_case _ world0)
               _ _ _ eq_refl Hv).
  by intros [].
Defined.

Section Further.
Context {D T : Type}.
Variable normalize : D → exn + option T.
Variable mutate : T → exn + gmap string (pyval bitarray).
Variable convert : string → exn + pyval bitarray.

(** ** The tasks of [buildSearchTasks] *)

Lemma fmap_pair_eta {A B} (l : list (A * B)) :
  (λ item, (item.1, item.2)) <$> l = l.
Proof.
  induction l as [|[a b] l IH]; [done|]. rewrite fmap_cons. by f_equal.
Qed.

Lemma elem_of_tasks_of (mutations : gmap string (pyval bitarray)) label x :
  SearchTask.mk x label ∈ tasks_of mutations ↔ mutations !! label = Some x.
Proof.
  unfold tasks_of. rewrite list_elem_of_fmap. split.
  - intros ([label' x'] & [= -> ->] & Hin). by apply elem_of_map_to_list.
  - intros Hl. exists (label, x). split; [done|]. by apply elem_of_map_to_list.
Qed.

(** X4.  [buildSearchTasks] builds exactly one task for each entry of the
    dict of mutations: as many tasks as entries, with pairwise different
    labels, a task with bits [x] and label [label] if and only if the dict
    maps [label] to [x], so that the dict can be read back from the tasks.
    An exception of [mutate] is the exception of [buildSearchTasks]. *)
Theorem X4_one_task_for_each_mutation (t : T) (w : world) :
  match mutate t with
  | inl e =>
      buildSearchTasks mutate (Some t) w
      = (inl e, World (messages w) (events w ++ [EvMutate]))
  | inr mutations =>
      ∃ tasks,
        buildSearchTasks mutate (Some t) w
        = (inr tasks, World (messages w) (events w ++ [EvMutate]))
        ∧ length tasks = size mutations
        ∧ NoDup (SearchTask.mutationType <$> tasks)
        ∧ (∀ label x,
             SearchTask.mk x label ∈ tasks ↔ mutations !! label = Some x)
        ∧ list_to_map
            ((λ task, (SearchTask.mutationType task, SearchTask.data task))
               <$> tasks) = mutations
  end.
Proof.
  pose proof (buildSearchTasks_logs mutate (Some t)) as Hb.
  cbv beta iota in Hb.
  destruct (mutate t) as [e|mutations]; [by rewrite Hb|].
  exists (tasks_of mutations). split_and!.
  - by rewrite Hb.
  - unfold tasks_of. by rewrite length_fmap, length_map_to_list.
  - apply tasks_of_labels.
  - apply elem_of_tasks_of.
  - unfold tasks_of. rewrite <- list_fmap_compose.
    change (list_to_map ((λ item, (item.1, item.2)) <$> map_to_list mutations)
            = mutations).
    rewrite fmap_pair_eta. apply list_to_map_to_list.
Qed.

End Further.

Lemma X4_witness :
  ∃ tasks,
    buildSearchTasks text_mutate (Some "ab") world0
    = (inr tasks, World (messages world0) (events world0 ++ [EvMutate]))
    ∧ length tasks = 3
    ∧ NoDup (SearchTask.mutationType <$> tasks).
Proof.
  pose proof (X4_one_task_for_each_mutation text_mutate "ab" world0) as H.
  change (text_mutate "ab") with
    (@inr exn _ (expand text_encodings "ab")) in H.
  cbv beta iota in H. destruct H as (tasks & H1 & H2 & H3 & _).
  exists tasks. split; [exact H1|]. split; [|exact H3].
  rewrite H2. vm_compute. reflexivity.
Defined.

(** ** Whole calls *)

Lemma elem_of_highlights rs s e :
  Highlight s e ∈ highlights rs
  ↔ ∃ r, r ∈ rs ∧ (s, e) ∈ SearchResult.ranges r.
Proof.
  unfold highlights. rewrite list_elem_of_bind. split.
  - intros (r & Hin & Hr). exists r. split; [done|].
    apply list_elem_of_bind in Hin as ([s' e'] & Hf & Hin).
    apply list_elem_of_singleton in Hf. by injection Hf as -> ->.
  - intros (r & Hr & Hin). exists r. split; [|done].
    apply list_elem_of_bind. exists (s, e). split; [|done].
    by apply list_elem_of_singleton.
Qed.

Lemma elem_of_cases_of target mutations case :
  case ∈ cases_of target mutations
  ↔ ∃ label x, mutations !! label = Some x
               ∧ case = (target, PyInst (SearchTask.mk x label)).
Proof.
  unfold cases_of, tasks_of. rewrite <- !list_fmap_compose.
  rewrite list_elem_of_fmap. split.
  - intros ([label x] & -> & Hin). exists label, x.
    split; [by apply elem_of_map_to_list|done].
  - intros (label & x & Hl & ->). exists (label, x).
    split; [done|by apply elem_of_map_to_list].
Qed.

Lemma all_bits_valid target mutations :
  all_bits mutations → Forall valid_case (cases_of (PyInst target) mutations).
Proof.
  intros Hb. apply Forall_forall.
  intros case (label & x & Hl & ->)%elem_of_cases_of.
  destruct (Hb _ _ Hl) as (bits & ->). done.
Qed.

Lemma elem_of_results target mutations r :
  all_bits mutations →
  r ∈ cases_of (PyInst target) mutations ≫= case_result
  ↔ ∃ label bits,
      mutations !! label = Some (PyInst bits) ∧ findAll target bits ≠ []
      ∧ r = SearchResult.mk target (SearchTask.mk (PyInst bits) label)
                            (ranges_of target bits).
Proof.
  intros Hb. rewrite list_elem_of_bind. split.
  - intros (case & Hr & (label & x & Hl & ->)%elem_of_cases_of).
    destruct (Hb _ _ Hl) as (bits & ->). simpl in Hr.
    case_decide as Hf; [by apply elem_of_nil in Hr|].
    apply list_elem_of_singleton in Hr. by exists label, bits.
  - intros (label & bits & Hl & Hf & ->).
    exists (PyInst target, PyInst (SearchTask.mk (PyInst bits) label)).
    split; [|apply elem_of_cases_of; by exists label, (PyInst bits)].
    simpl. rewrite decide_False by done. by apply list_elem_of_singleton.
Qed.

Lemma expand_all_bits {T} (encodings : gmap string (T → option bitarray))
    (value : T) :
  all_bits (expand encodings value).
Proof.
  intros label x. unfold expand. rewrite lookup_omap.
  destruct (encodings !! label) as [encode|]; simpl; [|done].
  destruct (encode value) as [[|b bits]|]; try done.
  intros [= <-]. by eexists.
Qed.

Section FurtherCalls.
Context {D T : Type}.
Variable normalize : D → exn + option T.
Variable mutate : T → exn + gmap string (pyval bitarray).
Variable convert : string → exn + pyval bitarray.

Lemma run_of_search_phase data message addTags w o evs :
  logs (search_phase normalize mutate convert data
          (AbstractMessage.data (messages w message))) o evs →
  ∃ w',
    searchDataInMessage normalize mutate convert (Some data) (Some message)
                        addTags w = (o, w')
    ∧ annotates message (if addTags then highlights_of o else [])
                (World (messages w) (events w ++ evs)) w'.
Proof.
  intros Hl.
  destruct (searchDataInMessage_run normalize mutate convert data message
              addTags w) as (o' & evs' & w' & Hl' & _ & Hrun & Ha).
  destruct (logs_inj _ _ _ _ _ Hl Hl') as [<- <-]. by exists w'.
Qed.

Lemma failed_search_phase data message addTags w e evs :
  logs (search_phase normalize mutate convert data
          (AbstractMessage.data (messages w message))) (inl e) evs →
  searchDataInMessage normalize mutate convert (Some data) (Some message)
                      addTags w
  = (inl e, World (messages w) (events w ++ evs)).
Proof.
  intros Hl. rewrite searchDataInMessage_phases. unfold bind. by rewrite Hl.
Qed.

Lemma search_phase_success data raw t mutations target :
  normalize data = inr (Some t) → mutate t = inr mutations →
  convert raw = inr (PyInst target) → all_bits mutations →
  logs (search_phase normalize mutate convert data raw)
       (inr (cases_of (PyInst target) mutations ≫= case_result))
       ([EvNormalize; EvMutate; EvConvert raw]
          ++ (cases_of (PyInst target) mutations ≫= search_event)).
Proof.
  intros En Em Ec Hb. pose proof (search_phase_cases normalize mutate convert
                                    data raw) as H.
  rewrite En, Em, Ec in H. apply H.
  apply foldM_search_case_results. by apply all_bits_valid.
Qed.

(** X5.  When the three collaborators return and every mutation is a
    bitarray, the call returns, and its results are exactly the mutations
    that occur in the converted content of the message: one result for each
    entry of the dict whose bits have a match, with the label and bits of the
    entry, the converted content as target, and the ranges of the matches. *)
Theorem X5_results_are_the_matching_mutations (data : D) (message : loc)
    (addTags : bool) (w : world) (t : T)
    (mutations : gmap string (pyval bitarray)) (target : bitarray) :
  normalize data = inr (Some t) → mutate t = inr mutations →
  convert (AbstractMessage.data (messages w message)) = inr (PyInst target) →
  all_bits mutations →
  ∃ rs,
    (searchDataInMessage normalize mutate convert (Some data) (Some message)
                         addTags w).1 = inr rs
    ∧ Forall result_ok rs
    ∧ (∀ r, r ∈ rs
            ↔ ∃ label bits,
                mutations !! label = Some (PyInst bits)
                ∧ findAll target bits ≠ []
                ∧ r = SearchResult.mk target
                        (SearchTask.mk (PyInst bits) label)
                        (ranges_of target bits)).
Proof.
  intros En Em Ec Hb.
  pose proof (search_phase_success data _ t mutations target En Em Ec Hb) as Hl.
  destruct (run_of_search_phase data message addTags w _ _ Hl) as (w' & -> & _).
  eexists. split; [reflexivity|]. split.
  - apply Forall_forall. intros r (case & Hr & _)%list_elem_of_bind.
    by eapply case_result_ok.
  - intros r. by apply elem_of_results.
Qed.

(** X6.  A call that raises has annotated nothing: every message is as it
    was before the call, and the trace has no annotation. *)
Theorem X6_a_failed_call_annotates_nothing (data : option D)
    (message : option loc) (addTags : bool) (w : world) (e : exn) :
  (searchDataInMessage normalize mutate convert data message addTags w).1
  = inl e →
  ∃ evs,
    events (searchDataInMessage normalize mutate convert data message
                                addTags w).2 = events w ++ evs
    ∧ Forall (λ ev, ¬ is_highlight ev) evs
    ∧ ∀ l, messages (searchDataInMessage normalize mutate convert data
                                          message addTags w).2 l
           = messages w l.
Proof.
  destruct data as [d|];
    [|intros _; exists []; by rewrite app_nil_r].
  destruct message as [m|];
    [|intros _; exists []; by rewrite app_nil_r].
  destruct (searchDataInMessage_run normalize mutate convert d m addTags w)
    as (o & evs & w' & Hl & Hnh & Hrun & _).
  rewrite Hrun. cbn [fst snd]. intros ->.
  rewrite (failed_search_phase _ _ _ _ _ _ Hl) in Hrun.
  injection Hrun as <-. by exists evs.
Qed.

(** X7.  The collaborators are called in the order [normalize], [mutate],
    [convert], and the exception of one of them is the exception of the
    call, raised before the next one is called and before any search; a
    normalized value that is [None] is refused by [buildSearchTasks] with a
    [TypeError] before [mutate] is called. *)
Theorem X7_exceptions_of_the_collaborators (data : D) (message : loc)
    (addTags : bool) (w : world) :
  let raw := AbstractMessage.data (messages w message) in
  let run := searchDataInMessage normalize mutate convert (Some data)
                                 (Some message) addTags w in
  match normalize data with
  | inl e => run = (inl e, World (messages w) (events w ++ [EvNormalize]))
  | inr None =>
      run = (inl (TypeError "The data cannot be None"),
             World (messages w) (events w ++ [EvNormalize]))
  | inr (Some t) =>
      match mutate t with
      | inl e =>
          run = (inl e,
                 World (messages w) (events w ++ [EvNormalize; EvMutate]))
      | inr _ =>
          match convert raw with
          | inl e =>
              run = (inl e,
                     World (messages w)
                           (events w ++ [EvNormalize; EvMutate; EvConvert raw]))
          | inr _ => True
          end
      end
  end.
Proof.
  cbv zeta.
  pose proof (search_phase_cases normalize mutate convert data
                (AbstractMessage.data (messages w message))) as H.
  destruct (normalize data) as [e|[t|]];
    [by apply failed_search_phase| |by apply failed_search_phase].
  destruct (mutate t) as [e|mutations]; [by apply failed_search_phase|].
  destruct (convert _) as [e|target]; [by apply failed_search_phase|done].
Qed.

(** X8.  Annotations accumulate: a second call with annotation on the same
    message returns the same results and appends the same annotations once
    more after those of the first call. *)
Theorem X8_annotations_accumulate (data : D) (message : loc) (w : world)
    (rs : SearchResults) :
  let w1 := (searchDataInMessage normalize mutate convert (Some data)
                                 (Some message) true w).2 in
  let r2 := searchDataInMessage normalize mutate convert (Some data)
                                (Some message) true w1 in
  (searchDataInMessage normalize mutate convert (Some data) (Some message)
                       true w).1 = inr rs →
  r2.1 = inr rs
  ∧ AbstractMessage.visualizationFunctions (messages w1 message)
    = AbstractMessage.visualizationFunctions (messages w message)
      ++ highlights rs
  ∧ AbstractMessage.visualizationFunctions (messages r2.2 message)
    = AbstractMessage.visualizationFunctions (messages w message)
      ++ highlights rs ++ highlights rs.
Proof.
  cbv zeta.
  destruct (searchDataInMessage_run normalize mutate convert data message
              true w) as (o & evs & w1 & Hl & _ & Hrun & (_ & Hm & _)).
  rewrite Hrun. cbn [fst snd]. intros ->.
  assert (AbstractMessage.data (messages w1 message)
          = AbstractMessage.data (messages w message)) as Hsame
    by (by rewrite Hm).
  rewrite <- Hsame in Hl.
  destruct (run_of_search_phase data message true w1 _ _ Hl)
    as (w2 & -> & (_ & Hm2 & _)).
  cbn [fst snd]. split; [reflexivity|]. rewrite Hm2. simpl. rewrite Hm.
  simpl. split; [reflexivity|]. by rewrite app_assoc.
Qed.

(** X9.  A converted content that is not a bitarray is noticed only by the
    guard of [__search]: the call raises its [TypeError] if there is a
    mutation to search for, and returns the empty collection if there is
    none; no search is run. *)
Theorem X9_target_that_is_not_a_bitarray (data : D) (message : loc)
    (addTags : bool) (w : world) (t : T)
    (mutations : gmap string (pyval bitarray)) (target : pyval bitarray) :
  normalize data = inr (Some t) → mutate t = inr mutations →
  convert (AbstractMessage.data (messages w message)) = inr target →
  (∀ b, target ≠ PyInst b) →
  let r := searchDataInMessage normalize mutate convert (Some data)
                               (Some message) addTags w in
  (mutations = ∅ → r.1 = inr [])
  ∧ (mutations ≠ ∅ →
     r.1 = inl (TypeError
       "Each search case must a tupple made of a bitarray and a SearchTask instance"))
  ∧ events r.2
    = events w ++ [EvNormalize; EvMutate;
                   EvConvert (AbstractMessage.data (messages w message))].
Proof.
  intros En Em Ec Ht. cbv zeta.
  pose proof (search_phase_cases normalize mutate convert data
                (AbstractMessage.data (messages w message))) as H.
  rewrite En, Em, Ec in H.
  destruct (map_to_list mutations) as [|[label x] items] eqn:Hitems.
  - assert (mutations = ∅) as -> by (by apply map_to_list_empty_iff).
    unfold tasks_of in H. rewrite map_to_list_empty in H.
    pose proof (H _ _ (logs_ret [])) as Hl.
    destruct (run_of_search_phase data message addTags w _ _ Hl)
      as (w' & -> & (He & _ & _)).
    cbn [fst snd]. split; [done|]. split; [done|].
    rewrite He. simpl. destruct addTags; simpl; by rewrite !app_nil_r.
  - assert (mutations ≠ ∅) as Hne.
    { intros ->. by rewrite map_to_list_empty in Hitems. }
    unfold tasks_of in H. rewrite Hitems in H.
    assert (logs (foldM search_case []
                    (pair target <$> (PyInst <$>
                       ((λ item, SearchTask.mk item.2 item.1)
                          <$> (label, x) :: items))))
                 (inl (TypeError
       "Each search case must a tupple made of a bitarray and a SearchTask instance"))
                 []) as Hf.
    { rewrite !fmap_cons. simpl. apply logs_bind_inl.
      destruct target as [|b|c]; [apply logs_raise|by destruct (Ht b)|
                                  apply logs_raise]. }
    rewrite (failed_search_phase _ _ _ _ _ _ (H _ _ Hf)). cbn [fst snd].
    split; [done|]. split; [done|]. reflexivity.
Qed.

(** X10.  With annotation, a call that returns has appended to the message
    exactly the occurrences of the mutations in its converted content: an
    annotation [(s, e)] is appended if and only if some mutation of the dict
    has non-empty bits that the content has from [s] to [e]. *)
Theorem X10_annotations_are_the_occurrences (data : D) (message : loc)
    (w : world) (t : T) (mutations : gmap string (pyval bitarray))
    (target : bitarray) :
  normalize data = inr (Some t) → mutate t = inr mutations →
  convert (AbstractMessage.data (messages w message)) = inr (PyInst target) →
  all_bits mutations →
  ∃ hl,
    AbstractMessage.visualizationFunctions
      (messages (searchDataInMessage normalize mutate convert (Some data)
                                     (Some message) true w).2 message)
    = AbstractMessage.visualizationFunctions (messages w message) ++ hl
    ∧ (∀ s e,
         Highlight s e ∈ hl
         ↔ ∃ label bits,
             mutations !! label = Some (PyInst bits) ∧ bits ≠ []
             ∧ occurrence target bits (s, e)).
Proof.
  intros En Em Ec Hb.
  pose proof (search_phase_success data _ t mutations target En Em Ec Hb) as Hl.
  destruct (run_of_search_phase data message true w _ _ Hl)
    as (w' & -> & (_ & Hm & _)).
  cbn [snd]. rewrite Hm. simpl. eexists. split; [reflexivity|].
  intros s e. rewrite elem_of_highlights. split.
  - intros (r & (label & bits & Hlk & Hf & ->)%elem_of_results & Hin);
      [|done].
    simpl in Hin. assert (bits ≠ []) as Hn by (by intros ->).
    exists label, bits. split_and!; [done|done|].
    by apply ranges_of_occurrence.
  - intros (label & bits & Hlk & Hn & Ho).
    apply ranges_of_occurrence in Ho; [|done].
    eexists. split.
    + apply elem_of_results; [done|]. exists label, bits.
      split_and!; [done| |reflexivity].
      intros Hf. unfold ranges_of in Ho. rewrite Hf in Ho.
      by apply elem_of_nil in Ho.
    + done.
Qed.

End FurtherCalls.

(** "ab" searched in "abcab" with the text instance. *)
Lemma X5_witness :
  ∃ rs,
    (searchDataInMessage text_normalize text_mutate text_convert
       (Some "ab") (Some 0) false world0).1 = inr rs
    ∧ Forall result_ok rs
    ∧ (∀ r, r ∈ rs
            ↔ ∃ label bits,
                expand text_encodings "ab" !! label = Some (PyInst bits)
                ∧ findAll (bits_of_string "abcab") bits ≠ []
                ∧ r = SearchResult.mk (bits_of_string "abcab")
                        (SearchTask.mk (PyInst bits) label)
                        (ranges_of (bits_of_string "abcab") bits)).
Proof.
  apply (X5_results_are_the_matching_mutations text_normalize text_mutate
           text_convert "ab" 0 false world0 "ab" (expand text_encodings "ab")
           (bits_of_string "abcab")).
  - reflexivity.
  - reflexivity.
  - reflexivity.
  - apply expand_all_bits.
Defined.

(** A conversion that raises: the call raises and has annotated nothing. *)
Lemma X6_witness :
  let failing := λ _ : string, @inl exn (pyval bitarray) (Exception "ValueError") in
  (searchDataInMessage text_normalize text_mutate failing
     (Some "ab") (Some 0) true world0).1 = inl (Exception "ValueError")
  ∧ ∃ evs,
      events (searchDataInMessage text_normalize text_mutate failing
                (Some "ab") (Some 0) true world0).2 = events world0 ++ evs
      ∧ Forall (λ ev, ¬ is_highlight ev) evs
      ∧ ∀ l, messages (searchDataInMessage text_normalize text_mutate failing
                         (Some "ab") (Some 0) true world0).2 l
             = messages world0 l.
Proof.
  cbv zeta. split; [vm_compute; reflexivity|].
  apply (X6_a_failed_call_annotates_nothing text_normalize text_mutate
           (λ _ : string, inl (Exception "ValueError"))
           (Some "ab") (Some 0) true world0 (Exception "ValueError")).
  vm_compute. reflexivity.
Defined.

(** Two annotated searches of "ab" in "abcab": eight annotations. *)
Lemma X8_witness :
  ∃ rs,
    (searchDataInMessage text_normalize text_mutate text_convert
       (Some "ab") (Some 0) true world0).1 = inr rs
    ∧ AbstractMessage.visualizationFunctions
        (messages
           (searchDataInMessage text_normalize text_mutate text_convert
              (Some "ab") (Some 0) true
              (searchDataInMessage text_normalize text_mutate text_convert
                 (Some "ab") (Some 0) true world0).2).2 0)
      = AbstractMessage.visualizationFunctions (messages world0 0)
        ++ highlights rs ++ highlights rs.
Proof.
  eexists. split; [vm_compute; reflexivity|].
  refine (proj2 (proj2 (X8_annotations_accumulate text_normalize text_mutate
                          text_convert "ab" 0 world0 _ _))).
  vm_compute. reflexivity.
Defined.

(** A conversion that returns [None], with three mutations to search for. *)
Lemma X9_witness :
  expand text_encodings "ab" ≠ ∅
  ∧ (searchDataInMessage text_normalize text_mutate
       (λ _ : string, inr PyNone) (Some "ab") (Some 0) true world0).1
    = inl (TypeError
        "Each search case must a tupple made of a bitarray and a SearchTask instance").
Proof.
  assert (expand text_encodings "ab" ≠ ∅) as Hne.
  { intros E. apply (f_equal (λ m, m !! "identity")) in E.
    vm_compute in E. discriminate E. }
  split; [exact Hne|].
  refine (proj1 (proj2 (X9_target_that_is_not_a_bitarray text_normalize
                          text_mutate (λ _ : string, inr PyNone) "ab" 0 true
                          world0 "ab" (expand text_encodings "ab") PyNone
                          eq_refl eq_refl eq_refl _)) Hne).
  intros b. discriminate.
Defined.

(** The annotations of "ab" searched in "abcab". *)
Lemma X10_witness :
  ∃ hl,
    AbstractMessage.visualizationFunctions
      (messages (searchDataInMessage text_normalize text_mutate text_convert
                   (Some "ab") (Some 0) true world0).2 0)
    = AbstractMessage.visualizationFunctions (messages world0 0) ++ hl
    ∧ (∀ s e,
         Highlight s e ∈ hl
         ↔ ∃ label bits,
             expand text_encodings "ab" !! label = Some (PyInst bits)
             ∧ bits ≠ []
             ∧ occurrence (bits_of_string "abcab") bits (s, e)).
Proof.
  apply (X10_annotations_are_the_occurrences text_normalize text_mutate
           text_convert "ab" 0 world0 "ab" (expand text_encodings "ab")
           (bits_of_string "abcab")).
  - reflexivity.
  - reflexivity.
  - reflexivity.
  - apply expand_all_bits.
Defined.
